(** * speedserver: a shallow embedding of [index.js]

    The development follows the live part of [index.js] (lines 1-697; the
    rest of the file is commented-out history).  Each endpoint is a closure
    over a few mutable variables that is re-entered from the event loop, so
    each one is embedded as a state record, a function per callback and a
    fold over the events the event loop delivers.

    Numbers.  JavaScript numbers are embedded as the rationals [Q] they
    denote, and arithmetic on them is exact.  Scaling by [1024 * 1024],
    comparisons, truncation to a length and differences of clock readings
    are exact on binary64 as well; products and quotients round there.  So
    a statement about a formula is an equality with the expression the
    code evaluates, and a statement about a string or a length derived
    from a product or a quotient is made up to the rounding of binary64
    (see [printsWithin]) or as a bound that rounding keeps.  A quotient
    the code may take by zero is a [number], which can be infinite or
    [NaN].  Lengths, offsets and counts are integers [Z].  A parse that
    yields [NaN] is [None].  Strings hold the characters up to U+00FF. *)

From Stdlib Require Import QArith Qcanon Qround Qminmax Qabs Lqa Lia.
From Stdlib Require Import DecimalString Ascii String Sorted.
From stdpp Require Import gmap strings list.

Open Scope Z_scope.

(** ** JavaScript helpers *)

(** A computation that may throw. *)
Inductive result (A : Type) : Type :=
| Ok (a : A)
| Throw (msg : string).
Arguments Ok {A} a.
Arguments Throw {A} msg.

(** [x < y] on numbers, as a boolean. *)
Definition Qltb (x y : Q) : bool := negb (Qle_bool y x).

(** [Math.round]: the nearest integer, ties towards +infinity. *)
Definition Math_round (x : Q) : Z := Qfloor (x + 0.5).

(** [a || b] on a parsed number: [NaN] and [0] are falsy. *)
Definition orDefault (parsed : option Q) (dflt : Q) : Q :=
  match parsed with
  | Some q => if Qeq_bool q 0 then dflt else q
  | None => dflt
  end.

(** The same on the result of [parseInt]. *)
Definition orDefaultZ (parsed : option Z) (dflt : Z) : Z :=
  match parsed with
  | Some z => if z =? 0 then dflt else z
  | None => dflt
  end.

(** [a || b] on a string: a missing and an empty string are falsy. *)
Definition orString (h : option string) (dflt : string) : string :=
  match h with
  | Some s => if decide (s = "") then dflt else s
  | None => dflt
  end.

(** [buf.slice(start, end)] for [0 <= start]: the bytes at the indices
    [start .. end - 1] that exist. *)
Definition slice {A} (l : list A) (start stop : Z) : list A :=
  take (Z.to_nat (stop - start)) (drop (Z.to_nat start) l).

(** [buf.length]. *)
Definition len {A} (l : list A) : Z := Z.of_nat (length l).

(** [Number.prototype.toFixed]: the decimal digit for [d] in [0, 9]. *)
Definition digitChar (d : Z) : ascii := ascii_of_nat (48 + Z.to_nat d).

(** The [digits] digits after the point of [n / 10^digits]. *)
Fixpoint fractionDigits (digits : nat) (n : Z) : string :=
  match digits with
  | O => EmptyString
  | S k => String (digitChar ((n / 10 ^ Z.of_nat k) mod 10))
             (fractionDigits k n)
  end.

(** [x.toFixed(digits)] for [|x| < 10^21]: with [n] the integer nearest
    to [|x| * 10^digits] (the larger one on a tie), the decimal digits of
    [n] with a point before the last [digits] of them, after a minus sign
    when [x < 0]. *)
Definition toFixed (x : Q) (digits : nat) : string :=
  let scale := 10 ^ Z.of_nat digits in
  let n := Qfloor (Qabs x * inject_Z scale + 0.5) in
  ((if Qltb x 0 then "-" else "") +:+
   NilZero.string_of_uint (N.to_uint (Z.to_N (n / scale))) +:+
   (match digits with O => "" | S _ => "." end) +:+
   fractionDigits digits n)%string.



(** The value of a division whose divisor may be zero. *)
Inductive number : Type :=
| Finite (q : Q)
| PosInfinity
| NegInfinity
| NaN.

(** [x / y]. *)
Definition divide (x y : Q) : number :=
  if Qeq_bool y 0 then
    if Qeq_bool x 0 then NaN
    else if Qltb 0 x then PosInfinity else NegInfinity
  else Finite (x / y).

(** [toFixed] on such a value. *)
Definition numberToFixed (x : number) (digits : nat) : string :=
  match x with
  | Finite q => toFixed q digits
  | PosInfinity => "Infinity"
  | NegInfinity => "-Infinity"
  | NaN => "NaN"
  end.

(** [s] is what [toFixed(digits)] prints for a number within [tol] of
    [x]: the print of [x] as binary64 arithmetic computes it, when [tol]
    bounds the rounding error of that computation. *)
Definition printsWithin (s : string) (x tol : Q) (digits : nat) : Prop :=
  exists v : Q, (Qabs (v - x) <= tol)%Q /\ s = toFixed v digits.

(** The check of [res.setHeader] on a header value
    ([/[^\t\x20-\x7e\x80-\xff]/] must not match): a value with another
    character makes it throw [ERR_INVALID_CHAR]. *)
Definition validHeaderChar (c : ascii) : bool :=
  let n := nat_of_ascii c in
  ((n =? 9) || ((32 <=? n) && (n <=? 126)) || (128 <=? n))%nat.

Fixpoint validHeaderValue (s : string) : bool :=
  match s with
  | EmptyString => true
  | String c rest => validHeaderChar c && validHeaderValue rest
  end.

(** ** The payload generator and its cache ([generateTestData]) *)

Module Payload.

(** Buffers are byte lists; a byte is an integer in [0, 256). *)
Abbreviation Buffer := (list Z).

(** The largest size [crypto.randomBytes] accepts: [2^31 - 1]. *)
Definition kMaxLength : Z := 2147483647.

(** The argument check of [crypto.randomBytes]: a size outside
    [0, kMaxLength] throws a [RangeError].  Sizes in this range are
    accepted by [Buffer.alloc] as well. *)
Definition validSize (size : Q) : bool :=
  Qle_bool 0 size && Qle_bool size (inject_Z kMaxLength).

(** The largest size [Buffer.alloc] accepts, [buffer.constants.MAX_LENGTH]
    of a 64-bit runtime: [2^53 - 1] (Node 22 and later; [2^32] in Node 15
    to 21, [2^32 - 1] in Node 14). *)
Definition MAX_LENGTH : Z := 2 ^ 53 - 1.

(** The argument check of [Buffer.alloc]. *)
Definition validAlloc (size : Q) : bool :=
  Qle_bool 0 size && Qle_bool size (inject_Z MAX_LENGTH).

(** The length of the typed array that backs a buffer requested with a
    fractional size: the size truncated ([ToIndex], [size >>> 0]). *)
Definition ToIndex (size : Q) : nat := Z.to_nat (Qfloor size).

(** [Buffer.alloc(size, fill)]. *)
Definition Buffer_alloc (size : Q) (fill : Z) : result Buffer :=
  if validAlloc size then Ok (replicate (ToIndex size) fill)
  else Throw "ERR_OUT_OF_RANGE".

(** The generator's state: the process-wide cache [testDataCache] and
    the operating system's entropy, a stream of which [drawn] bytes have
    been consumed.  The cache key [`${sizeInMB}mb_${pattern}`] determines
    and is determined by the pair of the number and the pattern. *)
Record Gen : Type := mkGen {
  testDataCache : gmap (Qc * string) (list Z);
  entropy : nat -> Z;
  drawn : nat
}.

Definition cacheKey (sizeInMB : Q) (pattern : string) : Qc * string :=
  (Q2Qc sizeInMB, pattern).

(** [crypto.randomBytes(size)]. *)
Definition randomBytes (size : Q) (g : Gen) : result Buffer * Gen :=
  if validSize size then
    let n := ToIndex size in
    (Ok (map (fun i => entropy g i mod 256) (seq (drawn g) n)),
     mkGen (testDataCache g) (entropy g) (drawn g + n)%nat)
  else (Throw "ERR_OUT_OF_RANGE", g).

(** The loop [for (let i = 0; i < sizeInBytes; i++) buffer[i] = ...].
    A store past the end of a typed array is ignored, as stdpp's list
    insert does.  [fuel] bounds the iterations. *)
Fixpoint fillLoop (fuel : nat) (i : Z) (sizeInBytes : Q) (buffer : Buffer)
  : Buffer :=
  match fuel with
  | O => buffer
  | S fuel' =>
      if Qltb (inject_Z i) sizeInBytes then
        fillLoop fuel' (i + 1) sizeInBytes
          (<[Z.to_nat i := (i * 137 + 19) mod 256]> buffer)
      else buffer
  end.

(** The loop runs [ceil(sizeInBytes)] times, so one more is enough. *)
Definition fillFuel (sizeInBytes : Q) : nat :=
  S (Z.to_nat (Qceiling sizeInBytes)).

(** The [switch (pattern)] of [generateTestData]. *)
Definition makeBuffer (sizeInBytes : Q) (pattern : string) (g : Gen)
  : result Buffer * Gen :=
  if decide (pattern = "random") then randomBytes sizeInBytes g
  else if decide (pattern = "compressible") then
    (Buffer_alloc sizeInBytes 65, g)
  else if decide (pattern = "incompressible") then
    match Buffer_alloc sizeInBytes 0 with
    | Ok buffer =>
        (Ok (fillLoop (fillFuel sizeInBytes) 0 sizeInBytes buffer), g)
    | Throw e => (Throw e, g)
    end
  else randomBytes sizeInBytes g.

Definition generateTestData (sizeInMB : Q) (pattern : string) (g : Gen)
  : result Buffer * Gen :=
  let key := cacheKey sizeInMB pattern in
  match testDataCache g !! key with
  | Some cached => (Ok cached, g)
  | None =>
      let sizeInBytes := (sizeInMB * 1024 * 1024)%Q in
      match makeBuffer sizeInBytes pattern g with
      | (Ok buffer, g') =>
          (Ok buffer,
           mkGen (<[key := buffer]> (testDataCache g'))
                 (entropy g') (drawn g'))
      | (Throw e, g') => (Throw e, g')
      end
  end.

(** The process at load time: an empty cache. *)
Definition coldStart (rng : nat -> Z) : Gen := mkGen ∅ rng 0.

(** [commonSizes.forEach(...)]: the pre-generation at load time. *)
Definition commonSizes : list Q := [0.1; 0.5; 1; 2; 5; 10; 25; 50]%Q.

Definition pregenerate (g : Gen) : Gen :=
  foldl (fun g size =>
           snd (generateTestData size "compressible"
                  (snd (generateTestData size "random" g))))
        g commonSizes.

(** The length of the buffer a call returned, if it returned one. *)
Definition returnedLength (r : result Buffer) : option Z :=
  match r with
  | Ok buffer => Some (len buffer)
  | Throw _ => None
  end.

(** The invariant of the cache: an entry stored under a size has the
    length the generator gives a buffer of that size, and an entry stored
    under the pattern ["compressible"] holds the byte [0x41] throughout. *)
Definition cacheOk (g : Gen) : Prop :=
  forall (q : Qc) (pattern : string) (buffer : Buffer),
    testDataCache g !! (q, pattern) = Some buffer ->
    length buffer = ToIndex (q * 1024 * 1024)%Q /\
    (pattern = "compressible" -> Forall (fun b => b = 65) buffer).

End Payload.

(** ** The sink

    What one call of [res.write] does: it returns [true], it returns
    [false] (the chunk is queued and ["drain"] will follow), or it throws. *)
Inductive writeOutcome : Type := Flushed | Buffered | WriteFails.

(** ** Fixed-size download ([GET /api/download/:size]) *)

Module Download.
Import Payload.

Definition chunkSize : Z := 64 * 1024.

(** The continuation [sendChunk] leaves behind: [setImmediate(sendChunk)]
    or [res.once("drain", sendChunk)]. *)
Inductive wake : Type := Immediate | Drain.

(** The closure's variables and what it has done to the response. Each
    entry of [writes] is one [res.write(chunk)], with the value of [offset]
    the chunk was sliced at. *)
Record Session : Type := mkSession {
  testData : Buffer;
  offset : Z;
  isFinished : bool;
  writes : list (Z * Buffer);
  ended : bool;
  errors : nat;
  waiting : option wake
}.

Definition cleanup (s : Session) : Session :=
  mkSession (testData s) (offset s) true (writes s) (ended s) (errors s)
    (waiting s).

Definition sendChunk (destroyed : bool) (w : writeOutcome) (s : Session)
  : Session :=
  if isFinished s || destroyed then
    mkSession (testData s) (offset s) (isFinished s) (writes s) (ended s)
      (errors s) None
  else if len (testData s) <=? offset s then
    cleanup
      (mkSession (testData s) (offset s) (isFinished s) (writes s) true
         (errors s) None)
  else
    let chunk :=
      slice (testData s) (offset s)
        (Z.min (offset s + chunkSize) (len (testData s))) in
    match w with
    | WriteFails =>
        cleanup
          (mkSession (testData s) (offset s) (isFinished s) (writes s)
             (ended s) (S (errors s)) None)
    | Flushed =>
        mkSession (testData s) (offset s + len chunk) (isFinished s)
          (writes s ++ [(offset s, chunk)]) (ended s) (errors s)
          (Some Immediate)
    | Buffered =>
        mkSession (testData s) (offset s + len chunk) (isFinished s)
          (writes s ++ [(offset s, chunk)]) (ended s) (errors s)
          (Some Drain)
    end.

(** What the event loop delivers to a session: the continuation left
    behind is called ([destroyed] is what [res.destroyed] reads then, [w]
    what [res.write] does if it is called), or one of the four
    close/aborted/error listeners runs [cleanup]. *)
Inductive event : Type :=
| Resume (destroyed : bool) (w : writeOutcome)
| Close.

Definition step (s : Session) (e : event) : Session :=
  match e with
  | Resume destroyed w =>
      match waiting s with
      | Some _ => sendChunk destroyed w s
      | None => s
      end
  | Close => cleanup s
  end.

Definition run (s : Session) (es : list event) : Session := foldl step s es.

(** The response of the handler: a JSON error, or the stream with its
    [Content-Length] header and the session after the first, synchronous
    [sendChunk()]. *)
Inductive Response : Type :=
| Json (status : Z) (error : string)
| Stream (contentLength : Z) (session : Session).

Definition start (testData : Buffer) : Session :=
  mkSession testData 0 false [] false 0 None.

(** The handler.  [size] is [parseFloat(req.params.size)] ([None] for
    [NaN]), [pattern] is [req.query.pattern].  Inside the [try], the
    generator may throw, and so does [res.setHeader("X-Pattern", pattern)]
    on a pattern that is not a legal header value; the [catch] answers
    both with the 500 reply, no header having been sent yet. *)
Definition handler (size : option Q) (pattern : option string)
  (destroyed : bool) (w : writeOutcome) (g : Gen) : Response * Gen :=
  let pattern := orString pattern "random" in
  match size with
  | None => (Json 400 "Invalid size. Must be between 0.1 and 10 MB", g)
  | Some size =>
      if Qltb size 0.1 || Qltb 10 size then
        (Json 400 "Invalid size. Must be between 0.1 and 10 MB", g)
      else
        match generateTestData size pattern g with
        | (Ok testData, g') =>
            if validHeaderValue pattern then
              (Stream (len testData)
                 (sendChunk destroyed w (start testData)), g')
            else (Json 500 "Failed to generate test data", g')
        | (Throw _, g') => (Json 500 "Failed to generate test data", g')
        end
  end.

(** The bytes a response has put on the wire. *)
Definition streamed (r : Response) : Buffer :=
  match r with
  | Json _ _ => []
  | Stream _ s => concat (map snd (writes s))
  end.

(** The response after further events. *)
Definition after (r : Response) (es : list event) : Response :=
  match r with
  | Json status error => Json status error
  | Stream n s => Stream n (run s es)
  end.

(** The response was ended by [sendChunk] finding the buffer drained. *)
Definition completed (r : Response) : bool :=
  match r with
  | Json _ _ => false
  | Stream _ s => ended s
  end.

(** The total length of the chunks written. *)
Definition bytesWritten (ws : list (Z * Buffer)) : Z :=
  foldr (fun w n => len (snd w) + n) 0 ws.

(** The chunks of [ws] tile [data] from the offset [from] on: each one
    was sliced where the one before it ended, is the bytes of [data]
    there, is not empty and is no longer than [chunkSize]. *)
Fixpoint contiguous (data : Buffer) (from : Z) (ws : list (Z * Buffer))
  : Prop :=
  match ws with
  | [] => True
  | (o, c) :: rest =>
      o = from /\ 0 < len c <= chunkSize /\
      c = slice data o (o + len c) /\
      contiguous data (from + len c) rest
  end.

(** What holds of a session of the buffer [data] at every moment. *)
Record Inv (data : Buffer) (s : Session) : Prop := mkInv {
  inv_data : testData s = data;
  inv_bounds : 0 <= offset s <= len data;
  inv_offset : offset s = bytesWritten (writes s);
  inv_tiles : contiguous data 0 (writes s);
  inv_bytes : concat (map snd (writes s)) = take (Z.to_nat (offset s)) data;
  inv_ended : ended s = true -> offset s = len data /\ isFinished s = true
}.

End Download.

(** ** Adaptive download ([GET /api/download-adaptive]) *)

Module Adaptive.
Import Payload.

(** The constants of the closure, as the handler derives them from the
    query. *)
Record Params : Type := mkParams {
  initialSize : Q;
  maxSize : Q;
  duration : Q;
  pattern : string;
  throttle : Q;
  startTime : Q
}.

(** [initial], [max] and [throttle] are the results of [parseFloat],
    [dur] of [parseInt], [now] the clock at the start of the handler. *)
Definition readParams (initial max : option Q) (dur : option Z)
  (pat : option string) (thr : option Q) (now : Q) : Params :=
  mkParams
    (Qmax (orDefault initial 1) 0.1)
    (Qmin (orDefault max 5) 10)
    (inject_Z (Z.min (orDefaultZ dur 5) 10))
    (orString pat "random")
    (Qmax (orDefault thr 1) 0.1)
    now.

(** What [sendData] leaves behind: [setTimeout(sendData, nextDelay)], or
    [res.once("drain", () => setTimeout(sendData, nextDelay))]. *)
Inductive wake : Type :=
| Timer (nextDelay : Q)
| Drain (nextDelay : Q).

(** What the closure does to the outside.  A [Write] records the values
    of [elapsed] and [chunkSize] at the call of [res.write(chunkData)]. *)
Inductive action : Type :=
| Write (elapsed chunkSize : Q) (chunkData : Buffer)
| SetTimeout (nextDelay : Q)
| OnceDrain
| End
| ConsoleError.

Record Session : Type := mkSession {
  currentSize : Q;
  isFinished : bool;
  trace : list action;
  waiting : option wake
}.

Definition cleanup (s : Session) : Session :=
  mkSession (currentSize s) true (trace s) (waiting s).

Definition emit (a : list action) (s : Session) : Session :=
  mkSession (currentSize s) (isFinished s) (trace s ++ a) (waiting s).

Definition targetSize (p : Params) (elapsed : Q) : Q :=
  let progress := (elapsed / duration p)%Q in
  (initialSize p + (maxSize p - initialSize p) * Qmin (progress * 2) 1)%Q.

(** [Math.max(currentSize * 0.03 * throttle, 0.05)], as the number the
    expression denotes; binary64 rounds the two products. *)
Definition chunkSize (p : Params) (currentSize : Q) : Q :=
  Qmax (currentSize * 0.03 * throttle p) 0.05.

Definition nextDelay (p : Params) (elapsed : Q) : Q :=
  Qmin 300 (100 + elapsed * 10 / throttle p).

(** The [catch] block. *)
Definition caught (destroyed : bool) (s : Session) : Session :=
  cleanup
    (emit (if negb destroyed && negb (isFinished s) then [ConsoleError; End]
           else [ConsoleError]) s).

Definition sendData (p : Params) (now : Q) (destroyed : bool)
  (w : writeOutcome) (sg : Session * Gen) : Session * Gen :=
  let (s0, g) := sg in
  let s := mkSession (currentSize s0) (isFinished s0) (trace s0) None in
  if isFinished s || destroyed then (s, g)
  else
    let elapsed := ((now - startTime p) / 1000)%Q in
    if Qle_bool (duration p) elapsed then
      (cleanup
         (emit (if negb destroyed && negb (isFinished s) then [End] else [])
            s), g)
    else
      let current := Qmin (targetSize p elapsed) (maxSize p) in
      let s := mkSession current (isFinished s) (trace s) None in
      let size := chunkSize p current in
      match generateTestData size (pattern p) g with
      | (Throw _, g') => (caught destroyed s, g')
      | (Ok chunkData, g') =>
          if negb destroyed && negb (isFinished s) then
            match w with
            | WriteFails => (caught destroyed s, g')
            | Flushed =>
                let d := nextDelay p elapsed in
                (mkSession current (isFinished s)
                   (trace s ++ [Write elapsed size chunkData; SetTimeout d])
                   (Some (Timer d)), g')
            | Buffered =>
                let d := nextDelay p elapsed in
                (mkSession current (isFinished s)
                   (trace s ++ [Write elapsed size chunkData; OnceDrain])
                   (Some (Drain d)), g')
            end
          else (s, g')
      end.

(** The events of a session: the timer set by [setTimeout] expires (with
    the clock, [res.destroyed] and the behaviour of [res.write] as the
    call of [sendData] finds them), ["drain"] is emitted, or a
    close/aborted/error listener runs. *)
Inductive event : Type :=
| TimerFires (now : Q) (destroyed : bool) (w : writeOutcome)
| DrainFires
| Close.

Definition step (p : Params) (sg : Session * Gen) (e : event)
  : Session * Gen :=
  match e, waiting (fst sg) with
  | TimerFires now destroyed w, Some (Timer _) => sendData p now destroyed w sg
  | DrainFires, Some (Drain d) =>
      (mkSession (currentSize (fst sg)) (isFinished (fst sg))
         (trace (fst sg) ++ [SetTimeout d]) (Some (Timer d)), snd sg)
  | Close, _ => (cleanup (fst sg), snd sg)
  | _, _ => sg
  end.

Definition run (p : Params) (sg : Session * Gen) (es : list event)
  : Session * Gen := foldl (step p) sg es.

(** The handler: the closure is created and [sendData()] is called once,
    synchronously; [now0] is the clock at that call.  Before that,
    [res.setHeader("X-Pattern", pattern)] throws on a pattern that is not
    a legal header value, outside any [try]: the handler is left, and
    neither a listener nor [sendData] ever runs. *)
Definition handler (p : Params) (now0 : Q) (destroyed : bool)
  (w : writeOutcome) (g : Gen) : Session * Gen :=
  if validHeaderValue (pattern p) then
    sendData p now0 destroyed w
      (mkSession (initialSize p) false [] None, g)
  else (mkSession (initialSize p) false [] None, g).

Definition isWrite (a : action) : bool :=
  match a with Write _ _ _ => true | _ => false end.

(** The calls of [res.write] so far. *)
Definition written (s : Session) : list action := filter isWrite (trace s).

(** The session was ended by [sendData] finding the duration elapsed:
    [res.end()] was called and no error was logged. *)
Definition completed (s : Session) : Prop :=
  isFinished s = true /\ (End ∈ trace s) /\ (ConsoleError ∉ trace s).



Definition delays (t : list action) : list Q :=
  omap (fun a => match a with SetTimeout d => Some d | _ => None end) t.



End Adaptive.

(** ** Connection warmup ([GET /api/warmup-advanced]) *)

Module Warmup.
Import Payload.

Record Phase : Type := mkPhase { size : Q; delay : Q }.

Definition phases : list Phase :=
  [ mkPhase 0.1 100; mkPhase 0.5 150; mkPhase 1.0 200; mkPhase 2.0 250 ].

(** What a timer set by the closure calls when it expires: [sendPhase],
    or the anonymous function that ends the response after the last
    phase. *)
Inductive callback : Type := SendPhase | Finish.

(** What [sendPhase] leaves behind: a timer, or the ["drain"] listener
    that will set one. *)
Inductive wake : Type :=
| Timer (delay : Q) (k : callback)
| Drain (delay : Q).

Inductive action : Type :=
| Write (phaseData : Buffer)
| SetTimeout (delay : Q)
| OnceDrain
| End
| ConsoleError.

Record Session : Type := mkSession {
  currentPhase : nat;
  isFinished : bool;
  trace : list action;
  waiting : option wake
}.

Definition cleanup (s : Session) : Session :=
  mkSession (currentPhase s) true (trace s) (waiting s).

Definition emit (a : list action) (s : Session) : Session :=
  mkSession (currentPhase s) (isFinished s) (trace s ++ a) (waiting s).

(** The [catch] block. *)
Definition caught (destroyed : bool) (s : Session) : Session :=
  cleanup
    (emit (if negb destroyed && negb (isFinished s) then [ConsoleError; End]
           else [ConsoleError]) s).

Definition sendPhase (destroyed : bool) (w : writeOutcome)
  (sg : Session * Gen) : Session * Gen :=
  let (s0, g) := sg in
  let s := mkSession (currentPhase s0) (isFinished s0) (trace s0) None in
  if isFinished s || destroyed then (s, g)
  else if (length phases <=? currentPhase s)%nat then
    (cleanup (emit [End] s), g)
  else
    match phases !! currentPhase s with
    | None => (caught destroyed s, g)
    | Some phase =>
        match generateTestData (size phase) "random" g with
        | (Throw _, g') => (caught destroyed s, g')
        | (Ok phaseData, g') =>
            if negb destroyed && negb (isFinished s) then
              match w with
              | WriteFails => (caught destroyed s, g')
              | _ =>
                  let next := S (currentPhase s) in
                  if (next <? length phases)%nat then
                    match w with
                    | Flushed =>
                        (mkSession next (isFinished s)
                           (trace s ++ [Write phaseData;
                                        SetTimeout (delay phase)])
                           (Some (Timer (delay phase) SendPhase)), g')
                    | _ =>
                        (mkSession next (isFinished s)
                           (trace s ++ [Write phaseData; OnceDrain])
                           (Some (Drain (delay phase))), g')
                    end
                  else
                    (mkSession next (isFinished s)
                       (trace s ++ [Write phaseData;
                                    SetTimeout (delay phase)])
                       (Some (Timer (delay phase) Finish)), g')
              end
            else (s, g')
        end
    end.

(** The function the last phase's timer calls. *)
Definition finish (destroyed : bool) (s0 : Session) : Session :=
  let s := mkSession (currentPhase s0) (isFinished s0) (trace s0) None in
  if negb (isFinished s) && negb destroyed then cleanup (emit [End] s)
  else s.

Inductive event : Type :=
| TimerFires (destroyed : bool) (w : writeOutcome)
| DrainFires
| Close.

Definition step (sg : Session * Gen) (e : event) : Session * Gen :=
  match e, waiting (fst sg) with
  | TimerFires destroyed w, Some (Timer _ SendPhase) =>
      sendPhase destroyed w sg
  | TimerFires destroyed w, Some (Timer _ Finish) =>
      (finish destroyed (fst sg), snd sg)
  | DrainFires, Some (Drain d) =>
      (mkSession (currentPhase (fst sg)) (isFinished (fst sg))
         (trace (fst sg) ++ [SetTimeout d]) (Some (Timer d SendPhase)),
       snd sg)
  | Close, _ => (cleanup (fst sg), snd sg)
  | _, _ => sg
  end.

Definition run (sg : Session * Gen) (es : list event) : Session * Gen :=
  foldl step sg es.

(** The handler: [sendPhase()] is called once, synchronously. *)
Definition handler (destroyed : bool) (w : writeOutcome) (g : Gen)
  : Session * Gen :=
  sendPhase destroyed w (mkSession 0 false [] None, g).

(** The session reached [res.end()] without an error being logged. *)
Definition completed (s : Session) : Prop :=
  isFinished s = true /\ (End ∈ trace s) /\ (ConsoleError ∉ trace s).

(** The trace with the ["drain"] registrations left out, and with each
    payload replaced by its length. *)
Inductive outline : Type :=
| Payload (bytes : Z)
| Delay (ms : Q)
| EndOfStream
| Error.

Definition outlineOf (t : list action) : list outline :=
  omap (fun a =>
          match a with
          | Write d => Some (Payload (len d))
          | SetTimeout d => Some (Delay d)
          | OnceDrain => None
          | End => Some EndOfStream
          | ConsoleError => Some Error
          end) t.

(** The outline of a warmup that runs to its end: the four bursts, each
    followed by its delay, then the end of the stream. *)
Definition script : list outline :=
  [ Payload 104857; Delay 100; Payload 524288; Delay 150;
    Payload 1048576; Delay 200; Payload 2097152; Delay 250; EndOfStream ].

(** The states a warmup session can be in: before the first call; between
    two phases, waiting for the timer or for ["drain"]; after the last
    phase, waiting for the timer that ends the response; with nothing left
    to run and the response not ended; cancelled; failed; and done. *)
Inductive shape (s : Session) : Prop :=
| Fresh :
    isFinished s = false -> currentPhase s = 0%nat -> trace s = [] ->
    waiting s = None -> shape s
| Paused (k : nat) (ph : Phase) :
    isFinished s = false -> currentPhase s = S k ->
    phases !! k = Some ph -> (S k < length phases)%nat ->
    waiting s = Some (Timer (delay ph) SendPhase) ->
    outlineOf (trace s) = take (2 * S k) script -> shape s
| Choked (k : nat) (ph : Phase) :
    isFinished s = false -> currentPhase s = S k ->
    phases !! k = Some ph -> (S k < length phases)%nat ->
    waiting s = Some (Drain (delay ph)) ->
    outlineOf (trace s) = take (2 * S k - 1) script -> shape s
| Closing (d : Q) :
    isFinished s = false -> waiting s = Some (Timer d Finish) ->
    outlineOf (trace s) = take 8 script -> shape s
| Stalled :
    waiting s = None -> End ∉ trace s -> shape s
| Cancelled :
    isFinished s = true -> End ∉ trace s -> shape s
| Failed :
    isFinished s = true -> ConsoleError ∈ trace s -> shape s
| Done :
    isFinished s = true -> waiting s = None ->
    outlineOf (trace s) = script -> shape s.

End Warmup.

(** ** Latency probe ([GET /api/latency-advanced]) *)

Module Latency.

Record Measurement : Type := mkMeasurement {
  index : Z;
  clientStartTime : Q;
  serverTime : Q;
  latency : Q
}.

Record Statistics : Type := mkStatistics {
  count : Z;
  average : string;
  minimum : string;
  maximum : string;
  jitter : string
}.

(** The constants of the closure: [count], [interval] and [startTime]. *)
Record Config : Type := mkConfig {
  cfgCount : Z;
  cfgInterval : Z;
  startTime : Q
}.

(** [countParam] and [intervalParam] are the results of [parseInt] on the
    query, [now] the clock. *)
Definition readQuery (countParam intervalParam : option Z) (now : Q)
  : Config :=
  mkConfig (Z.min (orDefaultZ countParam 5) 10)
           (Z.max (orDefaultZ intervalParam 50) 100)
           now.

(** The closure's variables, the delays it has passed to [setTimeout], the
    index the pending timer will call [performMeasurement] with, and the
    body of [res.json] once sent. *)
Record Probe : Type := mkProbe {
  measurements : list Measurement;
  completed : Z;
  timers : list Z;
  waiting : option Z;
  response : option (list Measurement * Statistics)
}.

(** [latencies.reduce((a, b) => a + b, 0)]. *)
Definition total (latencies : list Q) : Q := foldl Qplus 0%Q latencies.

(** The statistics block.  On no latencies the divisions and the spreads
    give [NaN] and the infinities.  [average] is the mean as the number
    the expression denotes; binary64 rounds its sum and its division
    (see [meanError]). *)
Definition statistics (completed : Z) (latencies : list Q) : Statistics :=
  match latencies with
  | [] => mkStatistics completed "NaN" "Infinity" "-Infinity" "-Infinity"
  | x :: xs =>
      let average := (total latencies / inject_Z (len latencies))%Q in
      let min := foldl Qmin x xs in
      let max := foldl Qmax x xs in
      let jitter := (max - min)%Q in
      mkStatistics completed (toFixed average 3) (toFixed min 3)
        (toFixed max 3) (toFixed jitter 3)
  end.


(** [performMeasurement(index)], with the clock it reads. *)
Definition performMeasurement (c : Config) (index : Z) (measurementTime : Q)
  (s : Probe) : Probe :=
  let measurements :=
    measurements s ++
    [mkMeasurement index (startTime c) measurementTime
       (measurementTime - startTime c)] in
  let completed := completed s + 1 in
  if cfgCount c <=? completed then
    mkProbe measurements completed (timers s) None
      (Some (measurements, statistics completed (map latency measurements)))
  else
    mkProbe measurements completed (timers s ++ [cfgInterval c])
      (Some (index + 1)) (response s).

(** The handler: [performMeasurement(0)] is called synchronously. *)
Definition handler (c : Config) (measurementTime : Q) : Probe :=
  performMeasurement c 0 measurementTime (mkProbe [] 0 [] None None).

(** The pending timer expires; [measurementTime] is the clock then. *)
Definition tick (c : Config) (s : Probe) (measurementTime : Q) : Probe :=
  match waiting s with
  | Some index => performMeasurement c index measurementTime s
  | None => s
  end.

(** The probe with the clock readings of the handler's call and of the
    timers that expire after it. *)
Definition probe (c : Config) (first : Q) (later : list Q) : Probe :=
  foldl (tick c) (handler c first) later.

(** The measurements a probe started at [start] collects from the clock
    readings [readings], the first of them with the index [index]. *)
Fixpoint measuredFrom (start : Q) (index : Z) (readings : list Q)
  : list Measurement :=
  match readings with
  | [] => []
  | t :: rest =>
      mkMeasurement index start t (t - start)
      :: measuredFrom start (index + 1) rest
  end.

(** The number of measurements a probe makes: at least one, and at most
    the count it was configured with. *)
Definition rounds (c : Config) : Z := Z.max 1 (cfgCount c).

End Latency.

(** ** Uploads ([POST /api/upload], [POST /api/upload-multi]) *)

Module Upload.
Import Payload.

(** What the handlers read of a request: the file multer stored in
    memory, the raw body when it is a buffer, and the headers after
    [parseFloat] and [parseInt]. *)
Record Request : Type := mkRequest {
  file : option Buffer;
  body : option Buffer;
  uploadStart : option Q;
  testSize : option Q;
  pattern : option string;
  connectionId : option string;
  totalConnections : option Z
}.

(** The expression both handlers bind to [speedMbps]: the quotient as the
    number the expression denotes (binary64 rounds it, see [speedError]),
    and what a division by zero would give if the guard let one
    through. *)
Definition speedMbps (dataSize : Z) (totalTime : Q) : number :=
  if Qltb 0 totalTime then
    divide (inject_Z dataSize * 8) (totalTime / 1000 * 1024 * 1024)
  else Finite 0.

(** A bound on the rounding error of the speed as binary64 arithmetic
    computes it for a positive total time: the difference of the two
    timestamps, the division by 1000 and the quotient round, with a
    relative error of at most [2^-53] each (the scalings by 1024 and by 8
    are exact), so the result is within [2^-50] of the quotient,
    relatively. *)
Definition speedError (speed : Q) : Q :=
  (speed * Qmake 1 (2 ^ 50)%positive)%Q.

(** The body of the single upload's reply, without the [integrity] field
    (an MD5 digest, which is not embedded) and the server name. *)
Record Report : Type := mkReport {
  clientStartTime : Q;
  receiveStartTime : Q;
  receiveEndTime : Q;
  processingTime : Q;
  totalTime : Q;
  size : Z;
  expectedSize : Q;
  reportPattern : string;
  reportSpeedMbps : string;
  efficiency : string
}.

Inductive Response : Type :=
| Json (status : Z) (error : string)
| Success (report : Report).

(** [dataSize] as both handlers determine it. *)
Definition dataSizeOf (req : Request) : option Z :=
  match file req with
  | Some f => Some (len f)
  | None =>
      match body req with
      | Some b => Some (len b)
      | None => None
      end
  end.

(** [POST /api/upload]; the two arguments after the request are the clock
    readings [receiveStartTime] and [receiveEndTime]. *)
Definition upload (req : Request) (receiveStart receiveEnd : Q) : Response :=
  let clientStart := orDefault (uploadStart req) receiveStart in
  let testSize := orDefault (testSize req) 0 in
  let pattern := orString (pattern req) "unknown" in
  match dataSizeOf req with
  | None => Json 400 "No data received"
  | Some dataSize =>
      let processingTime := (receiveEnd - receiveStart)%Q in
      let totalTime := (receiveEnd - clientStart)%Q in
      let speed := speedMbps dataSize totalTime in
      Success
        (mkReport clientStart receiveStart receiveEnd processingTime
           totalTime dataSize testSize pattern (numberToFixed speed 3)
           (if Qltb 0 testSize then
              toFixed (inject_Z dataSize / (testSize * 1024 * 1024) * 100) 2
            else "100.00"))
  end.

(** The body of the multi-connection upload's reply. *)
Record MultiReport : Type := mkMultiReport {
  multiConnectionId : string;
  multiTotalConnections : Z;
  multiClientStartTime : Q;
  receiveTime : Q;
  processTime : Q;
  networkDuration : Q;
  processingDuration : Q;
  totalDuration : Q;
  multiSize : Z;
  multiExpectedSize : Q;
  multiPattern : string;
  multiSpeedMbps : string
}.

Inductive MultiResponse : Type :=
| MultiJson (status : Z) (error : string)
| MultiSuccess (report : MultiReport).

(** [POST /api/upload-multi]; the clock readings are [receiveTime] and
    [processTime]. *)
Definition uploadMulti (req : Request) (receive process : Q)
  : MultiResponse :=
  let clientStart := orDefault (uploadStart req) receive in
  let connectionId := orString (connectionId req) "0" in
  let totalConnections := orDefaultZ (totalConnections req) 1 in
  let testSize := orDefault (testSize req) 0 in
  let pattern := orString (pattern req) "unknown" in
  match dataSizeOf req with
  | None => MultiJson 400 "No data received"
  | Some dataSize =>
      let networkDuration := (receive - clientStart)%Q in
      let processingDuration := (process - receive)%Q in
      let totalDuration := (process - clientStart)%Q in
      let speed := speedMbps dataSize totalDuration in
      MultiSuccess
        (mkMultiReport connectionId totalConnections clientStart receive
           process networkDuration processingDuration totalDuration
           dataSize testSize pattern (numberToFixed speed 3))
  end.

End Upload.

(** ** Further invariants *)

(** What the cache holds beyond the lengths: every byte of every entry is
    in the range of a byte, and an entry stored under the pattern
    ["incompressible"] holds [(i * 137 + 19) mod 256] at each index [i]. *)
Definition cacheExact (g : Payload.Gen) : Prop :=
  forall (q : Qc) (pattern : string) (buffer : list Z),
    Payload.testDataCache g !! (q, pattern) = Some buffer ->
    Forall (fun b => 0 <= b < 256) buffer /\
    (pattern = "incompressible" ->
     forall (i : nat) (b : Z),
       buffer !! i = Some b -> b = (Z.of_nat i * 137 + 19) mod 256).

(** Of the chunks a download has written, every one that is not the last
    so far, and every one at all while bytes remain, is a full chunk. *)
Definition fullChunks (data : list Z) (s : Download.Session) : Prop :=
  forall (i : nat) (c : Z * list Z),
    Download.writes s !! i = Some c ->
    (S i < length (Download.writes s))%nat \/ Download.offset s < len data ->
    len (snd c) = Download.chunkSize.

(** An adaptive session has ended the response at most once, and when it
    has, that was the last thing it did and nothing is left to run. *)
Definition endedOnce (s : Adaptive.Session) : Prop :=
  (Adaptive.isFinished s = false -> Adaptive.End ∉ Adaptive.trace s) /\
  (Adaptive.End ∈ Adaptive.trace s ->
   Adaptive.waiting s = None /\
   exists t, Adaptive.trace s = t ++ [Adaptive.End] /\ Adaptive.End ∉ t).

(** The number of calls of [res.end()] in the trace of an adaptive
    download. *)
Definition isEnd (a : Adaptive.action) : bool :=
  match a with Adaptive.End => true | _ => false end.

Definition endCalls (t : list Adaptive.action) : nat :=
  length (List.filter isEnd t).

(** The lengths of the payloads in the trace of a warmup, in order, and
    the byte counts of the four phases. *)
Definition payloadSizes (t : list Warmup.action) : list Z :=
  omap (fun a => match a with
                 | Warmup.Write d => Some (len d)
                 | _ => None
                 end) t.

Definition phaseBytes : list Z := [104857; 524288; 1048576; 2097152].

(** The number of calls of [res.end()] in the trace of a warmup. *)
Definition isWarmupEnd (a : Warmup.action) : bool :=
  match a with Warmup.End => true | _ => false end.

Definition warmupEndCalls (t : list Warmup.action) : nat :=
  length (List.filter isWarmupEnd t).

(** A warmup session has ended the response at most once, and when it has,
    that was the last thing it did and nothing is left to run. *)
Definition warmupEndedOnce (s : Warmup.Session) : Prop :=
  (Warmup.isFinished s = false -> Warmup.End ∉ Warmup.trace s) /\
  (Warmup.End ∈ Warmup.trace s ->
   Warmup.waiting s = None /\
   exists t, Warmup.trace s = t ++ [Warmup.End] /\ Warmup.End ∉ t).

(** The events that carry a warmup to its end when nothing goes wrong:
    after a write that was queued, ["drain"]; then the phase's timer, whose
    call of [sendPhase] meets the next write outcome; and after the last
    phase, the timer that ends the response. *)
Definition awaited (w : writeOutcome) : list Warmup.event :=
  match w with
  | Buffered => [Warmup.DrainFires]
  | _ => []
  end.

Definition warmupEvents (w0 w1 w2 w3 : writeOutcome) : list Warmup.event :=
  awaited w0 ++ [Warmup.TimerFires false w1] ++
  awaited w1 ++ [Warmup.TimerFires false w2] ++
  awaited w2 ++ [Warmup.TimerFires false w3] ++
  [Warmup.TimerFires false Flushed].

(** * Properties *)

(** ** Numbers *)

Lemma Qltb_lt (x y : Q) : Qltb x y = true <-> (x < y)%Q.
Proof.
  unfold Qltb. rewrite negb_true_iff. split.
  - intros H. apply Qnot_le_lt. intros Hle.
    apply Qle_bool_iff in Hle. congruence.
  - intros H. destruct (Qle_bool y x) eqn:E; [|reflexivity].
    apply Qle_bool_iff in E. exfalso. apply (Qlt_not_le _ _ H E).
Qed.

Lemma Qltb_ge (x y : Q) : Qltb x y = false <-> (y <= x)%Q.
Proof.
  unfold Qltb. rewrite negb_false_iff. apply Qle_bool_iff.
Qed.

Lemma len_app {A} (l k : list A) : len (l ++ k) = len l + len k.
Proof. unfold len. rewrite length_app. lia. Qed.

Lemma len_nonneg {A} (l : list A) : 0 <= len l.
Proof. unfold len. lia. Qed.

(** [Math.round] and truncation agree exactly below the half. *)
Lemma Math_round_floor (x : Q) :
  Math_round x = Qfloor x <-> (x - inject_Z (Qfloor x) < 0.5)%Q.
Proof.
  unfold Math_round.
  pose proof (Qfloor_le x) as Hlo. pose proof (Qlt_floor x) as Hhi.
  pose proof (Qfloor_le (x + 0.5)) as Hlo'.
  pose proof (Qlt_floor (x + 0.5)) as Hhi'.
  rewrite inject_Z_plus in Hhi, Hhi'. change (inject_Z 1) with 1%Q in *.
  split.
  - intros E. rewrite E in Hhi'. lra.
  - intros H.
    assert (Qfloor x <= Qfloor (x + 0.5)) by (apply Qfloor_resp_le; lra).
    assert (Qfloor (x + 0.5) < Qfloor x + 1); [|lia].
    rewrite Zlt_Qlt, inject_Z_plus. change (inject_Z 1) with 1%Q. lra.
Qed.

(** ** The payload generator *)

Section PayloadFacts.
Import Payload.

Lemma validSize_spec (size : Q) :
  validSize size = true <-> (0 <= size <= inject_Z kMaxLength)%Q.
Proof.
  unfold validSize. rewrite andb_true_iff, !Qle_bool_iff. reflexivity.
Qed.

Lemma validAlloc_spec (size : Q) :
  validAlloc size = true <-> (0 <= size <= inject_Z MAX_LENGTH)%Q.
Proof.
  unfold validAlloc. rewrite andb_true_iff, !Qle_bool_iff. reflexivity.
Qed.

(** What [crypto.randomBytes] accepts, [Buffer.alloc] accepts. *)
Lemma validSize_validAlloc (size : Q) :
  validSize size = true -> validAlloc size = true.
Proof.
  rewrite validSize_spec, validAlloc_spec. intros [H0 H1].
  split; [exact H0|]. eapply Qle_trans; [exact H1|].
  rewrite <- Zle_Qle. unfold kMaxLength, MAX_LENGTH. lia.
Qed.

Lemma fillLoop_length (fuel : nat) (i : Z) (n : Q) (buffer : Buffer) :
  length (fillLoop fuel i n buffer) = length buffer.
Proof.
  revert i buffer. induction fuel as [|fuel IH]; intros i buffer; simpl.
  - reflexivity.
  - destruct (Qltb (inject_Z i) n); [|reflexivity].
    rewrite IH. apply length_insert.
Qed.

Lemma randomBytes_spec (size : Q) (g : Gen) (buffer : Buffer) (g' : Gen) :
  randomBytes size g = (Ok buffer, g') ->
  length buffer = ToIndex size /\ testDataCache g' = testDataCache g.
Proof.
  unfold randomBytes. destruct (validSize size); [|discriminate].
  intros [= <- <-]. simpl. rewrite length_map, length_seq. auto.
Qed.

Lemma makeBuffer_spec (sizeInBytes : Q) (pattern : string) (g : Gen)
  (buffer : Buffer) (g' : Gen) :
  makeBuffer sizeInBytes pattern g = (Ok buffer, g') ->
  length buffer = ToIndex sizeInBytes /\
  testDataCache g' = testDataCache g /\
  (pattern = "compressible" -> Forall (fun b => b = 65) buffer).
Proof.
  unfold makeBuffer.
  destruct (decide (pattern = "random")) as [->|Hr].
  { intros H. apply randomBytes_spec in H as [? ?].
    repeat split; auto. discriminate. }
  destruct (decide (pattern = "compressible")) as [->|Hc].
  { unfold Buffer_alloc. destruct (validAlloc sizeInBytes); [|discriminate].
    intros [= <- <-]. rewrite length_replicate. repeat split; auto.
    intros _. apply Forall_replicate. reflexivity. }
  destruct (decide (pattern = "incompressible")) as [->|Hi].
  { unfold Buffer_alloc. destruct (validAlloc sizeInBytes); [|discriminate].
    cbv beta iota.
    remember (fillLoop _ 0 sizeInBytes _) as filled eqn:Hfilled.
    intros [= <- <-]. rewrite Hfilled, fillLoop_length, length_replicate.
    repeat split; auto. discriminate. }
  intros H. apply randomBytes_spec in H as [? ?].
  repeat split; auto. intros; contradiction.
Qed.

Lemma makeBuffer_returns (sizeInBytes : Q) (pattern : string) (g : Gen) :
  validSize sizeInBytes = true ->
  exists buffer g', makeBuffer sizeInBytes pattern g = (Ok buffer, g').
Proof.
  intros Hv. unfold makeBuffer, randomBytes, Buffer_alloc.
  rewrite Hv, (validSize_validAlloc _ Hv).
  repeat case_decide; eauto.
Qed.

(** The generator's primitives throw on a size [Buffer.alloc] refuses,
    and on a size [crypto.randomBytes] refuses when the pattern is one
    that draws random bytes. *)
Lemma makeBuffer_throws (sizeInBytes : Q) (pattern : string) (g : Gen) :
  validAlloc sizeInBytes = false \/
  (validSize sizeInBytes = false /\
   pattern <> "compressible" /\ pattern <> "incompressible") ->
  makeBuffer sizeInBytes pattern g = (Throw "ERR_OUT_OF_RANGE", g).
Proof.
  intros Hv. unfold makeBuffer, randomBytes, Buffer_alloc.
  destruct Hv as [Ha | (Hs & Hc & Hi)].
  - assert (Hs : validSize sizeInBytes = false).
    { destruct (validSize sizeInBytes) eqn:E; [|reflexivity].
      apply validSize_validAlloc in E. congruence. }
    rewrite Ha, Hs. repeat case_decide; eauto.
  - rewrite Hs. repeat case_decide; try contradiction; eauto.
Qed.

Lemma ToIndex_key (sizeInMB : Q) :
  ToIndex (Q2Qc sizeInMB * 1024 * 1024)%Q = ToIndex (sizeInMB * 1024 * 1024)%Q.
Proof.
  unfold ToIndex. f_equal. apply Qfloor_comp. simpl.
  rewrite (Qred_correct sizeInMB). reflexivity.
Qed.

(** Every call of the generator keeps the invariant of the cache. *)
Lemma generateTestData_cacheOk (sizeInMB : Q) (pattern : string) (g : Gen) :
  cacheOk g -> cacheOk (snd (generateTestData sizeInMB pattern g)).
Proof.
  intros Hok. unfold generateTestData.
  destruct (testDataCache g !! cacheKey sizeInMB pattern) eqn:Hhit; [exact Hok|].
  destruct (makeBuffer _ pattern g) as [[buffer|e] g'] eqn:Hmk; simpl.
  - apply makeBuffer_spec in Hmk as (Hlen & Hcache & Hfill).
    intros q p b. simpl. rewrite Hcache.
    destruct (decide (cacheKey sizeInMB pattern = (q, p))) as [E|NE].
    + rewrite E, lookup_insert_eq. intros [= <-].
      injection E as <- <-. rewrite ToIndex_key. auto.
    + rewrite lookup_insert_ne by exact NE. apply Hok.
  - unfold makeBuffer, randomBytes, Buffer_alloc in Hmk.
    destruct (validSize _), (validAlloc _); repeat case_decide; simplify_eq;
      exact Hok.
Qed.

(** A buffer the generator returns has the truncated size as its length,
    whether it was cached or made. *)
Lemma generateTestData_spec (sizeInMB : Q) (pattern : string) (g : Gen)
  (buffer : Buffer) (g' : Gen) :
  cacheOk g ->
  generateTestData sizeInMB pattern g = (Ok buffer, g') ->
  length buffer = ToIndex (sizeInMB * 1024 * 1024)%Q /\
  (pattern = "compressible" -> Forall (fun b => b = 65) buffer).
Proof.
  intros Hok. unfold generateTestData.
  destruct (testDataCache g !! cacheKey sizeInMB pattern) eqn:Hhit.
  - intros [= <- <-]. apply Hok in Hhit. rewrite ToIndex_key in Hhit. exact Hhit.
  - destruct (makeBuffer _ pattern g) as [[b|e] g1] eqn:Hmk; [|discriminate].
    intros [= <- <-]. apply makeBuffer_spec in Hmk as (? & ? & ?). auto.
Qed.

Lemma generateTestData_returns (sizeInMB : Q) (pattern : string) (g : Gen) :
  validSize (sizeInMB * 1024 * 1024)%Q = true ->
  exists buffer g', generateTestData sizeInMB pattern g = (Ok buffer, g').
Proof.
  intros Hv. unfold generateTestData.
  destruct (testDataCache g !! cacheKey sizeInMB pattern); [eauto|].
  destruct (makeBuffer_returns _ pattern g Hv) as (b & g1 & ->). eauto.
Qed.

Lemma cacheOk_coldStart (rng : nat -> Z) : cacheOk (coldStart rng).
Proof. intros q p b. simpl. rewrite lookup_empty. discriminate. Qed.

Lemma cacheOk_pregenerate (g : Gen) : cacheOk g -> cacheOk (pregenerate g).
Proof.
  unfold pregenerate. generalize commonSizes. intros sizes. revert g.
  induction sizes as [|size sizes IH]; intros g Hok; simpl; [exact Hok|].
  apply IH. do 2 apply generateTestData_cacheOk. exact Hok.
Qed.

(** C1, as amended.  For every size whose byte count [sizeInMB * 1024 *
    1024] the runtime accepts and for each of the three patterns, the
    generator returns a buffer, and its length is that byte count
    truncated to an integer, [floor(sizeInMB * 1024 * 1024)]; this is
    [round(sizeInMB * 1024 * 1024)] exactly when the fractional part of the
    byte count is below one half. *)
Theorem C1_generated_length_is_truncated
  (sizeInMB : Q) (pattern : string) (g : Gen) :
  cacheOk g ->
  pattern ∈ ["random"; "compressible"; "incompressible"] ->
  (0 <= sizeInMB * 1024 * 1024 <= inject_Z kMaxLength)%Q ->
  exists buffer g',
    generateTestData sizeInMB pattern g = (Ok buffer, g') /\
    len buffer = Qfloor (sizeInMB * 1024 * 1024) /\
    (len buffer = Math_round (sizeInMB * 1024 * 1024) <->
     (sizeInMB * 1024 * 1024
      - inject_Z (Qfloor (sizeInMB * 1024 * 1024)) < 0.5)%Q).
Proof.
  intros Hok _ Hrange.
  destruct (generateTestData_returns sizeInMB pattern g) as (b & g' & E).
  { apply validSize_spec. exact Hrange. }
  exists b, g'. split; [exact E|].
  apply (generateTestData_spec _ _ _ _ _ Hok) in E as [Hlen _].
  assert (Hl : len b = Qfloor (sizeInMB * 1024 * 1024)).
  { unfold len. rewrite Hlen. unfold ToIndex. apply Z2Nat.id.
    rewrite <- (Qfloor_Z 0). apply Qfloor_resp_le. apply Hrange. }
  split; [exact Hl|]. rewrite Hl.
  rewrite <- Math_round_floor. split; congruence.
Qed.

Lemma C1_generated_length_is_truncated_witness :
  exists buffer g',
    generateTestData 0.1 "incompressible" (coldStart (fun _ => 0))
    = (Ok buffer, g') /\
    len buffer = Qfloor (0.1 * 1024 * 1024) /\
    (len buffer = Math_round (0.1 * 1024 * 1024) <->
     (0.1 * 1024 * 1024 - inject_Z (Qfloor (0.1 * 1024 * 1024)) < 0.5)%Q).
Proof.
  apply (C1_generated_length_is_truncated 0.1 "incompressible"
           (coldStart (fun _ => 0))).
  - apply cacheOk_coldStart.
  - set_solver.
  - vm_compute. split; discriminate.
Defined.

(** C1 as stated fails on the second call the process makes while it
    loads: [generateTestData(0.1, "compressible")] returns 104857 bytes,
    and [round(0.1 * 1024 * 1024)] is 104858. *)
Lemma C1_counterexample :
  returnedLength
    (fst (generateTestData 0.1 "compressible"
            (snd (generateTestData 0.1 "random" (coldStart (fun _ => 0))))))
  = Some 104857 /\
  Math_round (0.1 * 1024 * 1024) = 104858.
Proof. vm_compute. split; reflexivity. Qed.

End PayloadFacts.

(** ** Fixed-size download *)

Section DownloadFacts.
Import Payload Download.

Lemma slice_len {A} (l : list A) (o e : Z) :
  0 <= o -> o <= e -> e <= len l -> len (slice l o e) = e - o.
Proof.
  unfold slice, len. intros. rewrite length_take, length_drop. lia.
Qed.

Lemma take_slice {A} (l : list A) (o e : Z) :
  0 <= o -> o <= e ->
  take (Z.to_nat o) l ++ slice l o e = take (Z.to_nat e) l.
Proof.
  intros. unfold slice. rewrite take_take_drop. f_equal. lia.
Qed.

Lemma bytesWritten_app (ws ws' : list (Z * Buffer)) :
  bytesWritten (ws ++ ws') = bytesWritten ws + bytesWritten ws'.
Proof.
  induction ws as [|[o c] ws IH]; simpl; [lia|].
  unfold bytesWritten in *. simpl. rewrite IH. lia.
Qed.

Lemma bytesWritten_concat (ws : list (Z * Buffer)) :
  bytesWritten ws = len (concat (map snd ws)).
Proof.
  induction ws as [|[o c] ws IH]; [reflexivity|].
  simpl. rewrite len_app, <- IH. reflexivity.
Qed.

Lemma contiguous_snoc (data : Buffer) (from : Z) (ws : list (Z * Buffer))
  (o : Z) (c : Buffer) :
  contiguous data from ws ->
  o = from + bytesWritten ws ->
  0 < len c <= chunkSize ->
  c = slice data o (o + len c) ->
  contiguous data from (ws ++ [(o, c)]).
Proof.
  revert from. induction ws as [|[o' c'] ws IH]; intros from Hc Ho Hl Hs.
  - simpl in *. unfold bytesWritten in Ho. simpl in Ho.
    repeat split; auto; lia.
  - simpl in *. destruct Hc as (-> & Hl' & Hs' & Hc).
    repeat split; auto; try lia.
    apply IH; auto. unfold bytesWritten in *. simpl in Ho. lia.
Qed.

(** Chunks that tile a buffer start at strictly increasing offsets. *)
Lemma contiguous_sorted (data : Buffer) (from : Z) (ws : list (Z * Buffer)) :
  contiguous data from ws ->
  Forall (fun o => from <= o) (map fst ws) /\
  StronglySorted Z.lt (map fst ws).
Proof.
  revert from. induction ws as [|[o c] ws IH]; intros from Hc; simpl.
  - split; constructor.
  - destruct Hc as (-> & Hl & _ & Hc). apply IH in Hc as [Hge Hs].
    split.
    + constructor; [lia|]. eapply Forall_impl; [exact Hge|].
      simpl. intros; lia.
    + constructor; [exact Hs|]. eapply Forall_impl; [exact Hge|].
      simpl. intros; lia.
Qed.

Lemma contiguous_bounded (data : Buffer) (from : Z) (ws : list (Z * Buffer)) :
  contiguous data from ws ->
  Forall (fun w => 0 < len (snd w) <= chunkSize) ws.
Proof.
  revert from. induction ws as [|[o c] ws IH]; intros from Hc; simpl.
  - constructor.
  - destruct Hc as (_ & Hl & _ & Hc). constructor; eauto.
Qed.

Lemma Inv_start (data : Buffer) : Inv data (start data).
Proof.
  split; simpl; auto; try discriminate.
  pose proof (len_nonneg data). lia.
Qed.

Lemma Inv_write (data : Buffer) (s : Session) (k : option wake) :
  Inv data s -> isFinished s = false -> offset s < len (testData s) ->
  let chunk := slice (testData s) (offset s)
                 (Z.min (offset s + chunkSize) (len (testData s))) in
  Inv data
    (mkSession (testData s) (offset s + len chunk) (isFinished s)
       (writes s ++ [(offset s, chunk)]) (ended s) (errors s) k).
Proof.
  intros [Hd Hb Ho Ht Hy He] Hfin Hlt chunk.
  assert (Hchunk : chunk = slice data (offset s) (offset s + len chunk)).
  { subst chunk. rewrite Hd in *. rewrite slice_len by (unfold chunkSize; lia).
    f_equal. lia. }
  assert (Hpos : 0 < len chunk <= chunkSize).
  { subst chunk. rewrite slice_len by (unfold chunkSize; lia).
    unfold chunkSize in *. lia. }
  assert (Hfit : offset s + len chunk <= len data).
  { subst chunk. rewrite Hd in *. rewrite slice_len by (unfold chunkSize; lia).
    lia. }
  clearbody chunk. rewrite Hd in *.
  split; simpl; auto.
  - lia.
  - rewrite bytesWritten_app, <- Ho. unfold bytesWritten. simpl. lia.
  - apply contiguous_snoc; auto; lia.
  - rewrite map_app, concat_app, Hy. simpl. rewrite app_nil_r.
    rewrite Hchunk at 1. apply take_slice; lia.
  - intros E. apply He in E as [_ E]. congruence.
Qed.

Lemma Inv_sendChunk (data : Buffer) (destroyed : bool) (w : writeOutcome)
  (s : Session) :
  Inv data s -> Inv data (sendChunk destroyed w s).
Proof.
  intros HI. pose proof HI as [Hd Hb Ho Ht Hy He]. unfold sendChunk.
  destruct (isFinished s || destroyed) eqn:Hfin.
  { split; simpl; auto. }
  apply orb_false_iff in Hfin as [Hfin _].
  destruct (len (testData s) <=? offset s) eqn:Hend.
  { apply Z.leb_le in Hend. rewrite Hd in Hend.
    split; simpl; auto. intros _. split; [lia|reflexivity]. }
  apply Z.leb_gt in Hend.
  destruct w.
  - apply Inv_write; auto.
  - apply Inv_write; auto.
  - split; simpl; auto. intros E. apply He in E as [E _]. auto.
Qed.

Lemma Inv_step (data : Buffer) (s : Session) (e : event) :
  Inv data s -> Inv data (step s e).
Proof.
  intros HI. destruct e as [destroyed w|]; simpl.
  - destruct (waiting s); [apply Inv_sendChunk|]; exact HI.
  - destruct HI. split; simpl; auto. intros E. split; [apply inv_ended0|]; auto.
Qed.

Lemma Inv_run (data : Buffer) (s : Session) (es : list event) :
  Inv data s -> Inv data (run s es).
Proof.
  revert s. induction es as [|e es IH]; intros s HI; simpl; [exact HI|].
  apply IH, Inv_step, HI.
Qed.

Lemma sendChunk_offset_mono (data : Buffer) (destroyed : bool)
  (w : writeOutcome) (s : Session) :
  Inv data s -> offset s <= offset (sendChunk destroyed w s).
Proof.
  intros HI. unfold sendChunk.
  destruct (isFinished s || destroyed); [simpl; lia|].
  destruct (len (testData s) <=? offset s); [simpl; lia|].
  destruct w; simpl; try lia;
    pose proof (len_nonneg
      (slice (testData s) (offset s)
         (Z.min (offset s + chunkSize) (len (testData s))))); lia.
Qed.

Lemma step_offset_mono (data : Buffer) (s : Session) (e : event) :
  Inv data s -> offset s <= offset (step s e).
Proof.
  intros HI. destruct e as [destroyed w|]; simpl; [|lia].
  destruct (waiting s); [|lia]. eapply sendChunk_offset_mono, HI.
Qed.

Lemma run_offset_mono (data : Buffer) (s : Session) (es : list event) :
  Inv data s -> offset s <= offset (run s es).
Proof.
  revert s. induction es as [|e es IH]; intros s HI; simpl; [lia|].
  etransitivity; [eapply step_offset_mono, HI|].
  apply IH, Inv_step, HI.
Qed.

Lemma run_app (s : Session) (es es' : list event) :
  run s (es ++ es') = run (run s es) es'.
Proof. unfold run. apply foldl_app. Qed.

(** C3.  In a fixed-size download of a buffer of [N] bytes that reaches
    [res.end()] in [sendChunk], the lengths of the chunks written add up to
    [N] and the chunks in order are the buffer; the chunks were sliced at
    strictly increasing offsets, the first at 0 and each next one where
    the one before it ended, so without gaps or overlaps; no chunk is
    longer than 64 KiB; and at every moment of the session [offset] was at
    least what it was at any earlier moment, at most what it was at the
    end, and at most [N]. *)
Theorem C3_chunks_tile_the_buffer (data : Buffer) (destroyed : bool)
  (w : writeOutcome) (es : list event) :
  let s := run (sendChunk destroyed w (start data)) es in
  ended s = true ->
  bytesWritten (writes s) = len data /\
  concat (map snd (writes s)) = data /\
  contiguous data 0 (writes s) /\
  StronglySorted Z.lt (map fst (writes s)) /\
  Forall (fun c => len (snd c) <= 64 * 1024) (writes s) /\
  (forall es1 es2, es = es1 ++ es2 ->
     let s1 := run (sendChunk destroyed w (start data)) es1 in
     0 <= offset s1 /\ offset s1 <= offset s /\ offset s <= len data) /\
  (forall es1 es2 es3, es = es1 ++ es2 ++ es3 ->
     let s1 := run (sendChunk destroyed w (start data)) es1 in
     let s2 := run (sendChunk destroyed w (start data)) (es1 ++ es2) in
     offset s1 <= offset s2 /\ offset s2 <= len data).
Proof.
  intros s Hend.
  assert (HI0 : Inv data (sendChunk destroyed w (start data)))
    by apply Inv_sendChunk, Inv_start.
  assert (HI : Inv data s) by apply Inv_run, HI0.
  pose proof HI as [Hd Hb Ho Ht Hy He].
  destruct (He Hend) as [Hfull _].
  repeat split.
  - congruence.
  - rewrite Hy, Hfull. unfold len. rewrite Nat2Z.id. apply firstn_all.
  - exact Ht.
  - apply (contiguous_sorted data 0), Ht.
  - eapply Forall_impl; [apply (contiguous_bounded data 0), Ht|].
    simpl. unfold chunkSize. intros; lia.
  - pose proof (Inv_run data _ es1 HI0) as [_ Hb1 _ _ _ _]. lia.
  - subst s. rewrite H, run_app. apply (run_offset_mono data).
    apply Inv_run, HI0.
  - lia.
  - rewrite run_app. apply (run_offset_mono data). apply Inv_run, HI0.
  - pose proof (Inv_run data _ (es1 ++ es2) HI0) as [_ Hb2 _ _ _ _]. lia.
Qed.

Lemma C3_chunks_tile_the_buffer_witness :
  let data := replicate (Z.to_nat 70000) 7 in
  let es := [Resume false Buffered; Resume false Flushed] in
  let s := run (sendChunk false Flushed (start data)) es in
  ended s = true /\
  bytesWritten (writes s) = len data /\
  map fst (writes s) = [0; 65536].
Proof.
  intros data es s.
  assert (E : ended s = true) by (vm_compute; reflexivity).
  split; [exact E|]. split.
  - exact (proj1 (C3_chunks_tile_the_buffer data false Flushed es E)).
  - vm_compute. reflexivity.
Defined.

(** A size in the admitted range, with a pattern that is a legal header
    value, is never rejected: the handler streams, with the buffer's
    length as [Content-Length]. *)
Lemma handler_accepts (size : Q) (pattern : option string)
  (destroyed : bool) (w : writeOutcome) (g : Gen) :
  (0.1 <= size <= 10)%Q ->
  validHeaderValue (orString pattern "random") = true ->
  exists data g',
    generateTestData size (orString pattern "random") g = (Ok data, g') /\
    handler (Some size) pattern destroyed w g
    = (Stream (len data) (sendChunk destroyed w (start data)), g').
Proof.
  intros [Hlo Hhi] Hheader.
  destruct (generateTestData_returns size (orString pattern "random") g)
    as (data & g' & E).
  { apply validSize_spec. unfold kMaxLength. split.
    - apply Qle_trans with (0.1 * 1024 * 1024)%Q; [discriminate|].
      do 2 (apply Qmult_le_compat_r; [|discriminate]). exact Hlo.
    - apply Qle_trans with (10 * 1024 * 1024)%Q; [|discriminate].
      do 2 (apply Qmult_le_compat_r; [|discriminate]). exact Hhi. }
  exists data, g'. split; [exact E|].
  unfold handler.
  apply Qltb_ge in Hlo, Hhi. rewrite Hlo, Hhi. simpl.
  rewrite E, Hheader. reflexivity.
Qed.

(** C2.  The fixed-size download of 0.1 MB with the pattern
    ["compressible"] announces 104857 bytes, and once it has run to its
    end the bytes written for the response are exactly 104857, each of
    them [0x41]. *)
Theorem C2_tenth_of_a_megabyte_compressible (g : Gen) (destroyed : bool)
  (w : writeOutcome) (es : list event) :
  cacheOk g ->
  let r := after (fst (handler (Some 0.1%Q) (Some "compressible")
                         destroyed w g)) es in
  completed r = true ->
  (exists s, r = Stream 104857 s) /\
  len (streamed r) = 104857 /\
  Forall (fun b => b = 65) (streamed r).
Proof.
  intros Hok.
  destruct (handler_accepts 0.1 (Some "compressible") destroyed w g)
    as (data & g' & Egen & ->); [split; discriminate|reflexivity|].
  change (orString (Some "compressible") "random") with "compressible" in Egen.
  apply (generateTestData_spec _ _ _ _ _ Hok) in Egen as [Hlen Hfill].
  assert (Hn : len data = 104857).
  { unfold len. rewrite Hlen. vm_compute. reflexivity. }
  simpl. intros Hend.
  pose proof (Inv_run data _ es (Inv_sendChunk data destroyed w _
                                   (Inv_start data))) as HI.
  destruct HI as [_ _ _ _ Hy He]. destruct (He Hend) as [Hfull _].
  assert (Hall : concat (map snd (writes (run (sendChunk destroyed w
                                                 (start data)) es))) = data).
  { rewrite Hy, Hfull. unfold len. rewrite Nat2Z.id. apply firstn_all. }
  rewrite Hall, Hn. repeat split; eauto.
Qed.

Lemma C2_tenth_of_a_megabyte_compressible_witness :
  let r := after (fst (handler (Some 0.1%Q) (Some "compressible") false
                         Flushed (coldStart (fun _ => 0))))
             [Resume false Flushed; Resume false Flushed] in
  completed r = true /\ len (streamed r) = 104857.
Proof.
  intros r.
  assert (E : completed r = true) by (vm_compute; reflexivity).
  split; [exact E|].
  exact (proj1 (proj2 (C2_tenth_of_a_megabyte_compressible
                         (coldStart (fun _ => 0)) false Flushed
                         [Resume false Flushed; Resume false Flushed]
                         (cacheOk_coldStart _) E))).
Defined.

(** C4.  A fixed-size download whose size parameter does not parse to a
    number, or parses to a number below 0.1 or above 10, is answered with
    status 400 and the body [{error: "Invalid size. Must be between 0.1
    and 10 MB"}]; the generator is not called, and no payload byte is
    ever written for the response. *)
Theorem C4_invalid_size_is_rejected (size : option Q)
  (pattern : option string) (destroyed : bool) (w : writeOutcome) (g : Gen)
  (es : list event) :
  (size = None \/ exists q, size = Some q /\ (q < 0.1 \/ 10 < q)%Q) ->
  handler size pattern destroyed w g
  = (Json 400 "Invalid size. Must be between 0.1 and 10 MB", g) /\
  streamed (after (fst (handler size pattern destroyed w g)) es) = [].
Proof.
  intros Hbad.
  assert (E : handler size pattern destroyed w g
              = (Json 400 "Invalid size. Must be between 0.1 and 10 MB", g)).
  { destruct Hbad as [->|(q & -> & Hq)]; [reflexivity|].
    unfold handler. destruct Hq as [Hq|Hq]; apply Qltb_lt in Hq; rewrite Hq.
    - reflexivity.
    - rewrite orb_true_r. reflexivity. }
  rewrite E. split; reflexivity.
Qed.

Lemma C4_invalid_size_is_rejected_witness :
  fst (handler (Some (-1)%Q) None false Flushed (coldStart (fun _ => 0)))
  = Json 400 "Invalid size. Must be between 0.1 and 10 MB" /\
  fst (handler (Some 20%Q) None false Flushed (coldStart (fun _ => 0)))
  = Json 400 "Invalid size. Must be between 0.1 and 10 MB".
Proof.
  split.
  - refine (f_equal fst (proj1 (C4_invalid_size_is_rejected (Some (-1)%Q) None
                                  false Flushed (coldStart (fun _ => 0)) [] _))).
    right. exists (-1)%Q. split; [reflexivity|]. left. reflexivity.
  - refine (f_equal fst (proj1 (C4_invalid_size_is_rejected (Some 20%Q) None
                                  false Flushed (coldStart (fun _ => 0)) [] _))).
    right. exists 20%Q. split; [reflexivity|]. right. reflexivity.
Defined.

End DownloadFacts.

(** ** Adaptive download *)

Section AdaptiveFacts.
Import Payload Adaptive.

Lemma adaptive_run_app (p : Params) (sg : Session * Gen) (es es' : list event) :
  run p sg (es ++ es') = run p (run p sg es) es'.
Proof. unfold run. apply foldl_app. Qed.







Lemma End_notin_write (e c : Q) (data : Buffer) (a : action) :
  a = OnceDrain \/ (exists d, a = SetTimeout d) ->
  (End ∉ [Write e c data; a]) /\ (ConsoleError ∉ [Write e c data; a]).
Proof.
  intros Ha. split; intros H;
    repeat (apply elem_of_cons in H as [H|H];
            [destruct Ha as [->|[d ->]]; discriminate H|]);
    apply elem_of_nil in H; exact H.
Qed.





(** With a pattern that is a legal header value the handler reaches its
    call of [sendData]. *)
Lemma handler_legal (p : Params) (now0 : Q) (destroyed : bool)
  (w : writeOutcome) (g : Gen) :
  validHeaderValue (pattern p) = true ->
  handler p now0 destroyed w g
  = sendData p now0 destroyed w (mkSession (initialSize p) false [] None, g).
Proof. intros H. unfold handler. rewrite H. reflexivity. Qed.










(** What a call of [sendData] appends to the trace when it does not write. *)
Lemma not_a_write (t : list action) (k : list action) (e c : Q)
  (data : Buffer) (rest : list action) :
  t ++ k = t ++ Write e c data :: rest ->
  k = [] \/ k = [End] \/ k = [ConsoleError; End] \/ k = [ConsoleError] ->
  False.
Proof.
  intros E Hk. apply app_inv_head in E.
  destruct Hk as [-> | [-> | [-> | ->]]]; discriminate.
Qed.

(** The anatomy of a call of [sendData] that writes: it ran on a live
    session before the duration had elapsed, the generator returned the
    chunk, and the trace grew by the write and by what was left behind. *)
Lemma sendData_write_inv (p : Params) (now : Q) (destroyed : bool)
  (w : writeOutcome) (s : Session) (g : Gen) (s' : Session) (g' : Gen)
  (e c : Q) (data : Buffer) (rest : list action) :
  sendData p now destroyed w (s, g) = (s', g') ->
  trace s' = trace s ++ Write e c data :: rest ->
  let elapsed := ((now - startTime p) / 1000)%Q in
  let size := chunkSize p (Qmin (targetSize p elapsed) (maxSize p)) in
  (elapsed < duration p)%Q /\ e = elapsed /\ c = size /\
  generateTestData size (pattern p) g = (Ok data, g') /\
  ((w = Flushed /\ rest = [SetTimeout (nextDelay p elapsed)] /\
    waiting s' = Some (Timer (nextDelay p elapsed))) \/
   (w = Buffered /\ rest = [OnceDrain] /\
    waiting s' = Some (Drain (nextDelay p elapsed)))).
Proof.
  unfold sendData. simpl.
  destruct (isFinished s) eqn:Hf; simpl.
  { intros [= <- <-] E. simpl in E. rewrite <- (app_nil_r (trace s)) in E at 1.
    exfalso. eapply not_a_write; eauto. }
  destruct destroyed; simpl.
  { intros [= <- <-] E. simpl in E. rewrite <- (app_nil_r (trace s)) in E at 1.
    exfalso. eapply not_a_write; eauto. }
  destruct (Qle_bool (duration p) ((now - startTime p) / 1000)) eqn:Hlate.
  { intros [= <- <-] E. simpl in E. exfalso. eapply not_a_write; eauto 6. }
  assert (Hin : ((now - startTime p) / 1000 < duration p)%Q).
  { apply Qnot_le_lt. intros H. apply Qle_bool_iff in H. congruence. }
  destruct (generateTestData _ (pattern p) g) as [[chunk|msg] g1] eqn:Hgen;
    simpl.
  - destruct w; simpl; intros [= <- <-] E; simpl in E.
    + apply app_inv_head in E. injection E as <- <- <- <-.
      repeat split; auto.
    + apply app_inv_head in E. injection E as <- <- <- <-.
      repeat split; auto.
    + exfalso. eapply not_a_write; eauto 6.
  - intros [= <- <-] E. simpl in E. exfalso. eapply not_a_write; eauto 6.
Qed.

(** A call of [sendData] on a live session before the duration has
    elapsed writes a chunk, provided the runtime accepts its size. *)
Lemma sendData_writes (p : Params) (now : Q) (s : Session) (g : Gen) :
  let elapsed := ((now - startTime p) / 1000)%Q in
  let size := chunkSize p (Qmin (targetSize p elapsed) (maxSize p)) in
  isFinished s = false ->
  (elapsed < duration p)%Q ->
  validSize (size * 1024 * 1024)%Q = true ->
  exists data g',
    sendData p now false Flushed (s, g)
    = (mkSession (Qmin (targetSize p elapsed) (maxSize p)) false
         (trace s ++ [Write elapsed size data;
                      SetTimeout (nextDelay p elapsed)])
         (Some (Timer (nextDelay p elapsed))), g').
Proof.
  intros elapsed size Hf Hin Hv.
  destruct (generateTestData_returns size (pattern p) g Hv) as (data & g' & E).
  exists data, g'. unfold sendData. simpl. rewrite Hf. simpl.
  assert (Hlate : Qle_bool (duration p) ((now - startTime p) / 1000) = false).
  { destruct (Qle_bool _ _) eqn:Hle; [|reflexivity].
    apply Qle_bool_iff in Hle. exfalso. apply (Qlt_not_le _ _ Hin Hle). }
  rewrite Hlate. fold elapsed. fold size. rewrite E. reflexivity.
Qed.





(** C7, as amended.  On every call of [sendData] that writes a chunk, the
    delay of the timer set for the next call is
    [min(300, 100 + elapsed * 10 / r)] milliseconds with [elapsed] the
    elapsed time in seconds, [elapsed_ms / 1000]; the timer is set at once
    when the write was flushed, and when ["drain"] is emitted otherwise. *)
Theorem C7_next_delay_in_seconds (p : Params) (now : Q)
  (destroyed : bool) (w : writeOutcome) (s : Session) (g : Gen)
  (s' : Session) (g' : Gen) (e c : Q) (data : Buffer) (rest : list action) :
  sendData p now destroyed w (s, g) = (s', g') ->
  trace s' = trace s ++ Write e c data :: rest ->
  let elapsed_ms := (now - startTime p)%Q in
  let d := Qmin 300 (100 + elapsed_ms / 1000 * 10 / throttle p) in
  (w = Flushed /\ rest = [SetTimeout d] /\ waiting s' = Some (Timer d)) \/
  (w = Buffered /\ rest = [OnceDrain] /\
   step p (s', g') DrainFires
   = (mkSession (currentSize s') (isFinished s')
        (trace s' ++ [SetTimeout d]) (Some (Timer d)), g')).
Proof.
  intros Hcall Htrace elapsed_ms d.
  destruct (sendData_write_inv _ _ _ _ _ _ _ _ _ _ _ _ Hcall Htrace)
    as (_ & _ & _ & _ & [(-> & -> & Hw)|(-> & -> & Hw)]).
  - left. split; [reflexivity|]. split; [reflexivity|exact Hw].
  - right. split; [reflexivity|]. split; [reflexivity|].
    unfold step. simpl. rewrite Hw. reflexivity.
Qed.

Lemma C7_next_delay_in_seconds_witness :
  let p := readParams None None None (Some "compressible") None 0%Q in
  exists c data,
    trace (fst (handler p 0%Q false Flushed (coldStart (fun _ => 0))))
    = [Write ((0 - 0) / 1000) c data;
       SetTimeout (Qmin 300 (100 + (0 - 0) / 1000 * 10 / throttle p))].
Proof.
  intros p.
  destruct (sendData_writes p 0%Q (mkSession (initialSize p) false [] None)
              (coldStart (fun _ => 0)))
    as (data & g' & E); [reflexivity|reflexivity|reflexivity|].
  destruct (C7_next_delay_in_seconds p 0%Q false Flushed _ _ _ _
              _ _ data _ E eq_refl) as [(_ & _ & _)|(Hw & _)];
    [|discriminate Hw].
  eexists _, data. rewrite (handler_legal p) by reflexivity. rewrite E.
  reflexivity.
Defined.

(** C7 as stated fails one second into a session with [throttle = 1]: the
    timer set by the call of [sendData] at [elapsed_ms = 1000] has a delay
    of 110 ms, while [min(300, 100 + elapsed_ms * 10 / r)] is 300 ms. *)
Lemma C7_counterexample :
  let p := readParams None None None (Some "compressible") None 0%Q in
  Forall2 Qeq
    (delays (trace (fst (run p (handler p 0%Q false Flushed
                                  (coldStart (fun _ => 0)))
                           [TimerFires 1000%Q false Flushed]))))
    [100%Q; 110%Q] /\
  (Qmin 300 (100 + 1000 * 10 / throttle p) == 300)%Q /\
  ~ (110 == 300)%Q.
Proof.
  vm_compute. split; [|split].
  - repeat constructor.
  - reflexivity.
  - discriminate.
Qed.

End AdaptiveFacts.

(** ** Connection warmup *)

Section WarmupFacts.
Import Payload Warmup.

Lemma outlineOf_app (t k : list action) :
  outlineOf (t ++ k) = outlineOf t ++ outlineOf k.
Proof. unfold outlineOf. apply omap_app. Qed.

Lemma End_in_outline (t : list action) :
  End ∈ t -> EndOfStream ∈ outlineOf t.
Proof.
  intros H. unfold outlineOf. apply list_elem_of_omap.
  exists End. split; [exact H|reflexivity].
Qed.

Lemma no_End_in_prefix (t : list action) (n : nat) :
  (n <= 8)%nat -> outlineOf t = take n script -> End ∉ t.
Proof.
  intros Hn E H. apply End_in_outline in H. rewrite E in H.
  apply elem_of_take in H as (i & Hi & Hlt).
  do 8 (destruct i as [|i]; [discriminate Hi|]). lia.
Qed.

Lemma phase_bytes (g g' : Gen) (ph : Phase) (k : nat) (data : Buffer) :
  cacheOk g -> phases !! k = Some ph ->
  generateTestData (size ph) "random" g = (Ok data, g') ->
  take 2 (drop (2 * k) script) = [Payload (len data); Delay (delay ph)].
Proof.
  intros Hok Hk Hgen.
  apply (generateTestData_spec _ _ _ _ _ Hok) in Hgen as [Hl _].
  unfold len. rewrite Hl.
  do 4 (destruct k as [|k]; [injection Hk as <-; vm_compute; reflexivity|]).
  discriminate Hk.
Qed.

Lemma take_two_more {A} (l : list A) (n : nat) (x y : A) :
  take 2 (drop n l) = [x; y] -> take n l ++ [x; y] = take (n + 2) l.
Proof. intros <-. apply take_take_drop. Qed.

Lemma take_one_more {A} (l : list A) (n : nat) (x y : A) :
  take 2 (drop n l) = [x; y] ->
  take (n + 1) l = take n l ++ [x] /\ take (n + 1) l ++ [y] = take (n + 2) l.
Proof.
  intros E. rewrite <- (take_take_drop l n 2), E.
  rewrite <- (take_take_drop l n 1).
  assert (take 1 (drop n l) = [x]) as ->.
  { change 1%nat with (1 `min` 2)%nat. rewrite <- take_take, E. reflexivity. }
  split; [reflexivity|]. rewrite <- app_assoc. reflexivity.
Qed.

Lemma phase_delay (k : nat) (ph : Phase) :
  phases !! k = Some ph ->
  take (2 * S k - 1) script ++ [Delay (delay ph)] = take (2 * S k) script.
Proof.
  intros Hk.
  do 4 (destruct k as [|k]; [injection Hk as <-; reflexivity|]).
  discriminate Hk.
Qed.

Lemma generateTestData_cacheOk_pair (size : Q) (pattern : string) (g : Gen)
  (r : result Buffer) (g' : Gen) :
  cacheOk g -> generateTestData size pattern g = (r, g') -> cacheOk g'.
Proof.
  intros Hok E. pose proof (generateTestData_cacheOk size pattern g Hok) as H.
  rewrite E in H. exact H.
Qed.

Lemma sendPhase_cacheOk (destroyed : bool) (w : writeOutcome) (s : Session)
  (g : Gen) :
  cacheOk g -> cacheOk (snd (sendPhase destroyed w (s, g))).
Proof.
  intros Hok. unfold sendPhase. cbn -[phases Nat.ltb Nat.leb].
  destruct (isFinished s || destroyed); [exact Hok|].
  destruct (length phases <=? currentPhase s)%nat; [exact Hok|].
  destruct (phases !! currentPhase s) as [ph|]; [|exact Hok].
  destruct (generateTestData (size ph) "random" g) as [[data|e] g'] eqn:Hgen;
    apply (generateTestData_cacheOk_pair _ _ _ _ _ Hok) in Hgen.
  - destruct (negb destroyed && negb (isFinished s)); [|exact Hgen].
    destruct w; try exact Hgen;
      destruct (S (currentPhase s) <? length phases)%nat; exact Hgen.
  - exact Hgen.
Qed.

(** A call of [sendPhase] on a session that is finished does nothing. *)
Lemma sendPhase_finished (destroyed : bool) (w : writeOutcome) (s : Session)
  (g : Gen) :
  isFinished s = true ->
  sendPhase destroyed w (s, g)
  = (mkSession (currentPhase s) true (trace s) None, g).
Proof. intros Hf. unfold sendPhase. cbn -[phases Nat.ltb Nat.leb]. rewrite Hf. reflexivity. Qed.

(** A call of [sendPhase] on a live session that has sent [k] phases. *)
Lemma sendPhase_live (destroyed : bool) (w : writeOutcome) (s : Session)
  (g : Gen) (k : nat) :
  cacheOk g -> isFinished s = false -> currentPhase s = k ->
  (k < length phases)%nat ->
  outlineOf (trace s) = take (2 * k) script ->
  shape (fst (sendPhase destroyed w (s, g))).
Proof.
  intros Hok Hf Hk Hlt Hout.
  assert (HnoEnd : End ∉ trace s).
  { apply (no_End_in_prefix _ (2 * k)); [change (length phases) with 4%nat in Hlt; lia|exact Hout]. }
  unfold sendPhase. cbn -[phases Nat.ltb Nat.leb]. rewrite Hf, Hk. cbn -[phases Nat.ltb Nat.leb].
  destruct destroyed; cbn -[phases Nat.ltb Nat.leb].
  { apply Stalled; simpl; auto. }
  destruct (length phases <=? k)%nat eqn:Hge.
  { apply Nat.leb_le in Hge. lia. }
  destruct (phases !! k) as [ph|] eqn:Hph.
  2:{ apply lookup_ge_None in Hph. lia. }
  destruct (generateTestData (size ph) "random" g) as [[data|e] g'] eqn:Hgen;
    cbn -[phases Nat.ltb Nat.leb].
  2:{ apply Failed; simpl; auto.
      apply elem_of_app. right. apply elem_of_cons. left. reflexivity. }
  pose proof (phase_bytes g g' ph k data Hok Hph Hgen) as Htwo.
  assert (Hwt : forall d, outlineOf [Write data; SetTimeout d]
                          = [Payload (len data); Delay d]) by reflexivity.
  assert (Hwd : outlineOf [Write data; OnceDrain] = [Payload (len data)])
    by reflexivity.
  change (length phases) with 4%nat in *.
  destruct w.
  - destruct (S k <? 4)%nat eqn:Hnext; cbn -[phases Nat.ltb Nat.leb].
    + apply Nat.ltb_lt in Hnext.
      apply (Paused _ k ph); auto.
      cbn [trace]. rewrite outlineOf_app, Hout, Hwt.
      rewrite (take_two_more _ _ _ _ Htwo). f_equal. lia.
    + apply Nat.ltb_ge in Hnext.
      assert (k = 3%nat) as -> by lia.
      apply (Closing _ (delay ph)); auto.
      cbn [trace]. rewrite outlineOf_app, Hout, Hwt.
      rewrite (take_two_more _ _ _ _ Htwo). reflexivity.
  - destruct (S k <? 4)%nat eqn:Hnext; cbn -[phases Nat.ltb Nat.leb].
    + apply Nat.ltb_lt in Hnext.
      apply (Choked _ k ph); auto.
      cbn [trace]. rewrite outlineOf_app, Hout, Hwd.
      destruct (take_one_more _ _ _ _ Htwo) as [<- _]. f_equal. lia.
    + apply Nat.ltb_ge in Hnext.
      assert (k = 3%nat) as -> by lia.
      apply (Closing _ (delay ph)); auto.
      cbn [trace]. rewrite outlineOf_app, Hout, Hwt.
      rewrite (take_two_more _ _ _ _ Htwo). reflexivity.
  - apply Failed; auto. cbn.
    apply elem_of_app. right. apply elem_of_cons. left. reflexivity.
Qed.

Lemma shape_step (sg : Session * Gen) (e : event) :
  cacheOk (snd sg) -> shape (fst sg) ->
  shape (fst (step sg e)) /\ cacheOk (snd (step sg e)).
Proof.
  destruct sg as [s g]. cbn [fst snd]. intros Hok Hs.
  destruct e as [destroyed w| |].
  - (* a timer expires *)
    unfold step. cbn [fst snd].
    destruct (waiting s) as [[d [|]|d]|] eqn:Hw; cbn [fst snd]; auto.
    + split; [|apply sendPhase_cacheOk, Hok].
      destruct Hs as [Hf Hk Ht Hw'|k ph Hf Hk Hph Hlt Hw' Hout
                     |k ph Hf Hk Hph Hlt Hw' Hout|d' Hf Hw' Hout
                     |Hw' HnE|Hf HnE|Hf HE|Hf Hw' Hout]; try congruence.
      * apply (sendPhase_live _ _ _ _ (S k)); auto.
      * rewrite sendPhase_finished by exact Hf. apply Cancelled; auto.
      * rewrite sendPhase_finished by exact Hf. apply Failed; auto.
    + split; [|exact Hok]. unfold finish. cbn [isFinished].
      destruct Hs as [Hf Hk Ht Hw'|k ph Hf Hk Hph Hlt Hw' Hout
                     |k ph Hf Hk Hph Hlt Hw' Hout|d' Hf Hw' Hout
                     |Hw' HnE|Hf HnE|Hf HE|Hf Hw' Hout]; try congruence.
      * rewrite Hf. simpl. destruct destroyed; simpl.
        -- apply Stalled; simpl; auto.
           apply (no_End_in_prefix _ 8); [lia|exact Hout].
        -- apply Done; simpl; auto.
           rewrite outlineOf_app, Hout. reflexivity.
      * rewrite Hf. simpl. apply Cancelled; auto.
      * rewrite Hf. simpl. apply Failed; auto.
  - (* "drain" is emitted *)
    unfold step. cbn [fst snd].
    destruct (waiting s) as [[d k|d]|] eqn:Hw; cbn [fst snd]; auto.
    split; [|exact Hok].
    destruct Hs as [Hf Hk Ht Hw'|k ph Hf Hk Hph Hlt Hw' Hout
                   |k ph Hf Hk Hph Hlt Hw' Hout|d' Hf Hw' Hout
                   |Hw' HnE|Hf HnE|Hf HE|Hf Hw' Hout]; try congruence.
    + assert (d = delay ph) as -> by congruence.
      apply (Paused _ k ph); simpl; auto.
      rewrite outlineOf_app, Hout. simpl. apply phase_delay, Hph.
    + apply Cancelled; simpl; auto. intros H.
      apply elem_of_app in H as [H|H]; [contradiction|].
      apply list_elem_of_singleton in H. discriminate.
    + apply Failed; simpl; auto. apply elem_of_app. left. exact HE.
  - (* a listener runs cleanup *)
    assert (Hc : shape (cleanup s)).
    { destruct Hs as [Hf Hk Ht Hw'|k ph Hf Hk Hph Hlt Hw' Hout
                     |k ph Hf Hk Hph Hlt Hw' Hout|d' Hf Hw' Hout
                     |Hw' HnE|Hf HnE|Hf HE|Hf Hw' Hout].
      - apply Cancelled; simpl; auto. rewrite Ht. apply not_elem_of_nil.
      - apply Cancelled; simpl; auto.
        apply (no_End_in_prefix _ (2 * S k)); [change (length phases) with 4%nat in Hlt; lia|exact Hout].
      - apply Cancelled; simpl; auto.
        apply (no_End_in_prefix _ (2 * S k - 1)); [change (length phases) with 4%nat in Hlt; lia|exact Hout].
      - apply Cancelled; simpl; auto.
        apply (no_End_in_prefix _ 8); [lia|exact Hout].
      - apply Cancelled; simpl; auto.
      - apply Cancelled; simpl; auto.
      - apply Failed; simpl; auto.
      - apply Done; simpl; auto. }
    unfold step. cbn [fst snd]. destruct (waiting s) as [[d k|d]|]; cbn [fst snd]; auto.
Qed.

Lemma shape_run (es : list event) (sg : Session * Gen) :
  cacheOk (snd sg) -> shape (fst sg) ->
  shape (fst (run sg es)) /\ cacheOk (snd (run sg es)).
Proof.
  revert sg. induction es as [|e es IH]; intros sg Hok Hs; simpl; [auto|].
  destruct (shape_step sg e Hok Hs) as [Hs' Hok']. apply IH; auto.
Qed.

Lemma shape_handler (destroyed : bool) (w : writeOutcome) (g : Gen) :
  cacheOk g ->
  shape (fst (handler destroyed w g)) /\ cacheOk (snd (handler destroyed w g)).
Proof.
  intros Hok. split; [|apply sendPhase_cacheOk, Hok].
  apply (sendPhase_live _ _ _ _ 0%nat); simpl; auto; lia.
Qed.

(** On a live session and a writable response, [sendPhase] sends the
    phase it is at and sets the phase's timer. *)
Lemma sendPhase_sends (s : Session) (g : Gen) (k : nat) (ph : Phase) :
  isFinished s = false -> currentPhase s = k -> phases !! k = Some ph ->
  exists data g',
    sendPhase false Flushed (s, g)
    = (mkSession (S k) false (trace s ++ [Write data; SetTimeout (delay ph)])
         (Some (Timer (delay ph)
                  (if (S k <? length phases)%nat then SendPhase else Finish))),
       g').
Proof.
  intros Hf Hk Hph.
  assert (Hlt : (k < length phases)%nat) by (eapply lookup_lt_Some; eauto).
  destruct (generateTestData_returns (size ph) "random" g) as (data & g' & E).
  { do 4 (destruct k as [|k]; [injection Hph as <-; reflexivity|]).
    discriminate Hph. }
  exists data, g'. unfold sendPhase. cbn -[phases Nat.ltb Nat.leb].
  rewrite Hf, Hk. cbn -[phases Nat.ltb Nat.leb].
  apply Nat.leb_gt in Hlt. rewrite Hlt, Hph, E.
  destruct (S k <? length phases)%nat; reflexivity.
Qed.

Lemma step_timer_sends (s : Session) (g : Gen) (k : nat) (ph : Phase)
  (d : Q) :
  isFinished s = false -> currentPhase s = k -> phases !! k = Some ph ->
  waiting s = Some (Timer d SendPhase) ->
  exists data g',
    step (s, g) (TimerFires false Flushed)
    = (mkSession (S k) false (trace s ++ [Write data; SetTimeout (delay ph)])
         (Some (Timer (delay ph)
                  (if (S k <? length phases)%nat then SendPhase else Finish))),
       g').
Proof.
  intros Hf Hk Hph Hw. unfold step. cbn [fst snd]. rewrite Hw.
  apply sendPhase_sends; assumption.
Qed.

(** With a writable response and no disconnect, the warmup runs to its
    end in the handler's call and four timers. *)
Lemma warmup_completes (g : Gen) :
  completed (fst (run (handler false Flushed g)
                    (replicate 4 (TimerFires false Flushed)))).
Proof.
  set (e := TimerFires false Flushed).
  change (run (handler false Flushed g) (replicate 4 e))
    with (step (step (step (step (handler false Flushed g) e) e) e) e).
  unfold handler.
  destruct (sendPhase_sends (mkSession 0 false [] None) g 0 _
              eq_refl eq_refl eq_refl) as (d1 & g1 & E1).
  rewrite E1.
  match type of E1 with _ = (?s, _) =>
    destruct (step_timer_sends s g1 1 _ _ eq_refl eq_refl eq_refl eq_refl)
      as (d2 & g2 & E2) end.
  fold e in E2. rewrite E2.
  match type of E2 with _ = (?s, _) =>
    destruct (step_timer_sends s g2 2 _ _ eq_refl eq_refl eq_refl eq_refl)
      as (d3 & g3 & E3) end.
  fold e in E3. rewrite E3.
  match type of E3 with _ = (?s, _) =>
    destruct (step_timer_sends s g3 3 _ _ eq_refl eq_refl eq_refl eq_refl)
      as (d4 & g4 & E4) end.
  fold e in E4. rewrite E4.
  split; [reflexivity|]. split.
  - cbn. do 8 (apply list_elem_of_further). apply list_elem_of_here.
  - cbn. intros H.
    repeat (apply elem_of_cons in H as [H|H]; [discriminate H|]).
    apply elem_of_nil in H. exact H.
Qed.

(** C8.  A warmup session that reaches [res.end()] with no error logged
    has written exactly four payloads, of 0.1, 0.5, 1.0 and 2.0 MB (104857,
    524288, 1048576 and 2097152 bytes) in this order, has set after each
    of them a timer with its delay of 100, 150, 200 and 250 ms, and has
    ended the response when the last timer expired, after which nothing
    is left to run. *)
Theorem C8_warmup_runs_the_four_phases (g : Gen) (destroyed : bool)
  (w : writeOutcome) (es : list event) :
  cacheOk g ->
  let s := fst (run (handler destroyed w g) es) in
  completed s ->
  outlineOf (trace s)
  = [ Payload 104857; Delay 100; Payload 524288; Delay 150;
      Payload 1048576; Delay 200; Payload 2097152; Delay 250; EndOfStream ]
  /\ waiting s = None.
Proof.
  intros Hok s (Hf & HE & HnC).
  destruct (shape_handler destroyed w g Hok) as [Hs0 Hok0].
  destruct (shape_run es _ Hok0 Hs0) as [Hs _]. fold s in Hs.
  destruct Hs as [Hf' Hk Ht Hw'|k ph Hf' Hk Hph Hlt Hw' Hout
                 |k ph Hf' Hk Hph Hlt Hw' Hout|d' Hf' Hw' Hout
                 |Hw' HnE|Hf' HnE|Hf' HE'|Hf' Hw' Hout];
    try congruence; try contradiction.
  split; [exact Hout|exact Hw'].
Qed.

Lemma C8_warmup_runs_the_four_phases_witness :
  let s := fst (run (handler false Flushed (coldStart (fun _ => 0)))
                  (replicate 4 (TimerFires false Flushed))) in
  completed s /\
  outlineOf (trace s)
  = [ Payload 104857; Delay 100; Payload 524288; Delay 150;
      Payload 1048576; Delay 200; Payload 2097152; Delay 250; EndOfStream ].
Proof.
  intros s.
  pose proof (warmup_completes (coldStart (fun _ => 0))) as Hdone.
  split; [exact Hdone|].
  exact (proj1 (C8_warmup_runs_the_four_phases (coldStart (fun _ => 0))
                  false Flushed (replicate 4 (TimerFires false Flushed))
                  (cacheOk_coldStart _) Hdone)).
Defined.

End WarmupFacts.

(** ** Formatting *)



Lemma toFixed_zero : toFixed 0 3 = "0.000".
Proof. reflexivity. Qed.

(** What [toFixed] prints for a number is within any tolerance of it. *)
Lemma printsWithin_exact (x tol : Q) (digits : nat) :
  (0 <= tol)%Q -> printsWithin (toFixed x digits) x tol digits.
Proof.
  intros Htol. exists x. split; [|reflexivity].
  assert (E : (x - x == 0)%Q) by ring.
  rewrite E. exact Htol.
Qed.


(** ** Latency probe *)

Section LatencyFacts.
Import Latency.


Lemma Qmax_either (x y : Q) : Qmax x y = x \/ Qmax x y = y.
Proof.
  unfold Qmax, GenericMinMax.gmax. destruct (x ?= y)%Q; auto.
Qed.


Lemma spread_max (xs : list Q) (x : Q) :
  foldl Qmax x xs ∈ x :: xs /\
  forall y, y ∈ x :: xs -> (y <= foldl Qmax x xs)%Q.
Proof.
  revert x. induction xs as [|a xs IH]; intros x; simpl.
  - split; [apply list_elem_of_here|].
    intros y Hy. apply list_elem_of_singleton in Hy as ->. apply Qle_refl.
  - destruct (IH (Qmax x a)) as [Hin Hle]. split.
    + apply elem_of_cons in Hin as [Hin|Hin].
      * rewrite Hin. destruct (Qmax_either x a) as [->| ->].
        -- apply list_elem_of_here.
        -- apply list_elem_of_further, list_elem_of_here.
      * do 2 apply list_elem_of_further. exact Hin.
    + intros y Hy.
      assert (Hm : (Qmax x a <= foldl Qmax (Qmax x a) xs)%Q)
        by (apply Hle, list_elem_of_here).
      apply elem_of_cons in Hy as [->|Hy].
      * eapply Qle_trans; [apply Q.le_max_l|exact Hm].
      * apply elem_of_cons in Hy as [->|Hy].
        -- eapply Qle_trans; [apply Q.le_max_r|exact Hm].
        -- apply Hle, list_elem_of_further, Hy.
Qed.






Lemma measuredFrom_snoc (start : Q) (index : Z) (seen : list Q) (t : Q) :
  measuredFrom start index (seen ++ [t])
  = measuredFrom start index seen
    ++ [mkMeasurement (index + len seen) start t (t - start)].
Proof.
  revert index. induction seen as [|x seen IH]; intros index; simpl.
  - unfold len. simpl. rewrite Z.add_0_r. reflexivity.
  - rewrite IH.
    replace (index + 1 + len seen) with (index + len (x :: seen)); auto.
    unfold len. simpl length. lia.
Qed.



(** Once the response is sent no timer is pending and nothing changes. *)
Lemma probe_idle (c : Config) (later : list Q) (s : Probe) :
  waiting s = None -> foldl (tick c) s later = s.
Proof.
  intros Hw. induction later as [|t later IH]; simpl; [reflexivity|].
  unfold tick at 2. rewrite Hw. exact IH.
Qed.

Lemma performMeasurement_last (c : Config) (index : Z) (t : Q) (s : Probe) :
  cfgCount c <= completed s + 1 ->
  let ms := measurements s
            ++ [mkMeasurement index (startTime c) t (t - startTime c)] in
  performMeasurement c index t s
  = mkProbe ms (completed s + 1) (timers s) None
      (Some (ms, statistics (completed s + 1) (map latency ms))).
Proof.
  intros H. apply Z.leb_le in H. unfold performMeasurement. rewrite H.
  reflexivity.
Qed.

Lemma performMeasurement_more (c : Config) (index : Z) (t : Q) (s : Probe) :
  completed s + 1 < cfgCount c ->
  performMeasurement c index t s
  = mkProbe (measurements s
             ++ [mkMeasurement index (startTime c) t (t - startTime c)])
      (completed s + 1) (timers s ++ [cfgInterval c]) (Some (index + 1))
      (response s).
Proof.
  intros H. apply Z.leb_gt in H. unfold performMeasurement. rewrite H.
  reflexivity.
Qed.

(** A probe that has taken the readings [seen] and needs more of them
    takes as many of the readings [later] and replies. *)
Lemma probe_progress (c : Config) (later seen : list Q) (s : Probe) :
  measurements s = measuredFrom (startTime c) 0 seen ->
  completed s = len seen ->
  waiting s = Some (len seen) ->
  timers s = replicate (length seen) (cfgInterval c) ->
  len seen < cfgCount c ->
  cfgCount c - len seen <= len later ->
  let s' := foldl (tick c) s later in
  measurements s'
  = measuredFrom (startTime c) 0
      (seen ++ take (Z.to_nat (cfgCount c - len seen)) later) /\
  response s'
  = Some (measurements s',
          statistics (cfgCount c) (map latency (measurements s'))) /\
  timers s' = replicate (Z.to_nat (cfgCount c - 1)) (cfgInterval c) /\
  completed s' = cfgCount c.
Proof.
  revert seen s.
  induction later as [|t later IH]; intros seen s Hm Hc Hw Ht Hlt Hlen.
  { unfold len in Hlen at 2. simpl in Hlen. lia. }
  assert (Hlen1 : len (seen ++ [t]) = len seen + 1).
  { rewrite len_app. reflexivity. }
  assert (Hms : measurements s
                ++ [mkMeasurement (len seen) (startTime c) t (t - startTime c)]
                = measuredFrom (startTime c) 0 (seen ++ [t])).
  { rewrite measuredFrom_snoc, Hm, Z.add_0_l. reflexivity. }
  assert (Htake : seen ++ take (Z.to_nat (cfgCount c - len seen)) (t :: later)
                  = (seen ++ [t])
                    ++ take (Z.to_nat (cfgCount c - len (seen ++ [t]))) later).
  { replace (Z.to_nat (cfgCount c - len seen))
      with (S (Z.to_nat (cfgCount c - len (seen ++ [t])))) by lia.
    simpl take. rewrite <- app_assoc. reflexivity. }
  rewrite Htake.
  simpl foldl. unfold tick at 2. rewrite Hw.
  destruct (Z_le_gt_dec (cfgCount c) (len seen + 1)) as [Hdone|Hmore].
  - rewrite performMeasurement_last by lia. cbv zeta.
    rewrite probe_idle by reflexivity. cbn [measurements response timers
                                            completed].
    rewrite Hms, Hc.
    replace (Z.to_nat (cfgCount c - len (seen ++ [t]))) with 0%nat by lia.
    rewrite take_0, app_nil_r.
    assert (E : cfgCount c = len seen + 1) by lia. rewrite E.
    repeat split; auto.
    rewrite Ht. f_equal. unfold len. lia.
  - rewrite performMeasurement_more by lia.
    apply IH; cbn [measurements response timers completed waiting]; auto.
    + rewrite Hlen1, Hc. reflexivity.
    + rewrite Hlen1. reflexivity.
    + rewrite Ht, length_app. simpl.
      rewrite replicate_add. reflexivity.
    + lia.
    + unfold len in *. simpl length in Hlen. lia.
Qed.

(** The run of a probe: it takes [rounds] readings of the clock, sets a
    timer of the configured interval between any two of them, and replies
    with the measurements and their statistics. *)
Lemma probe_spec (c : Config) (first : Q) (later : list Q) :
  rounds c - 1 <= len later ->
  let s := probe c first later in
  measurements s
  = measuredFrom (startTime c) 0 (take (Z.to_nat (rounds c)) (first :: later))
  /\ response s
     = Some (measurements s,
             statistics (rounds c) (map latency (measurements s)))
  /\ timers s = replicate (Z.to_nat (rounds c - 1)) (cfgInterval c).
Proof.
  intros Hlen. unfold probe, handler. unfold rounds in *.
  destruct (Z_le_gt_dec (cfgCount c) 1) as [Hone|Hmore].
  - rewrite performMeasurement_last by (simpl; lia). cbv zeta.
    rewrite probe_idle by reflexivity.
    cbn [measurements response timers completed app].
    replace (Z.max 1 (cfgCount c)) with 1 by lia. auto.
  - rewrite performMeasurement_more by (simpl; lia).
    cbn [measurements response timers completed app].
    replace (Z.max 1 (cfgCount c)) with (cfgCount c) in * by lia.
    destruct (probe_progress c later [first]
                (mkProbe [mkMeasurement 0 (startTime c) first
                            (first - startTime c)] (0 + 1) [cfgInterval c]
                   (Some (0 + 1)) None))
      as (Hm & Hr & Ht & Hc); auto.
    + change (len [first]) with 1. lia.
    + change (len [first]) with 1 in Hm.
      replace (Z.to_nat (cfgCount c)) with (S (Z.to_nat (cfgCount c - 1)))
        by lia.
      simpl take. auto.
Qed.




End LatencyFacts.
(** ** Uploads *)

Section UploadFacts.
Import Upload.

Lemma divisor_positive (totalTime : Q) :
  (0 < totalTime)%Q -> (0 < totalTime / 1000 * 1024 * 1024)%Q.
Proof.
  intros H.
  assert (Hs : (totalTime / 1000 * 1024 * 1024
                == totalTime * (1048576 # 1000))%Q) by field.
  rewrite Hs. lra.
Qed.

Lemma speedMbps_nonpositive (dataSize : Z) (totalTime : Q) :
  (totalTime <= 0)%Q -> speedMbps dataSize totalTime = Finite 0.
Proof.
  intros H. unfold speedMbps. apply Qltb_ge in H. rewrite H. reflexivity.
Qed.

(** Under the guard the division is by a non-zero number, so it yields a
    finite one. *)
Lemma speedMbps_positive (dataSize : Z) (totalTime : Q) :
  (0 < totalTime)%Q ->
  speedMbps dataSize totalTime
  = Finite (inject_Z dataSize * 8 / (totalTime / 1000 * 1024 * 1024)) /\
  ~ (totalTime / 1000 * 1024 * 1024 == 0)%Q.
Proof.
  intros H. pose proof (divisor_positive _ H) as Hpos.
  assert (Hne : ~ (totalTime / 1000 * 1024 * 1024 == 0)%Q).
  { intros E. rewrite E in Hpos. apply (Qlt_irrefl _ Hpos). }
  split; [|exact Hne].
  unfold speedMbps. apply Qltb_lt in H. rewrite H. unfold divide.
  destruct (Qeq_bool (totalTime / 1000 * 1024 * 1024) 0) eqn:E;
    [|reflexivity].
  apply Qeq_bool_iff in E. contradiction.
Qed.

Lemma quotient_nonneg (dataSize : Z) (totalTime : Q) :
  0 <= dataSize -> (0 < totalTime)%Q ->
  (0 <= inject_Z dataSize * 8 / (totalTime / 1000 * 1024 * 1024))%Q.
Proof.
  intros Hd Ht. unfold Qdiv at 1. apply Qmult_le_0_compat.
  - assert (0 <= inject_Z dataSize)%Q
      by (change 0%Q with (inject_Z 0); rewrite <- Zle_Qle; exact Hd).
    lra.
  - apply Qinv_le_0_compat, Qlt_le_weak, divisor_positive, Ht.
Qed.

Lemma speedError_nonneg (q : Q) : (0 <= q)%Q -> (0 <= speedError q)%Q.
Proof.
  intros H. unfold speedError. apply Qmult_le_0_compat; [exact H|discriminate].
Qed.

Lemma dataSizeOf_nonneg (req : Request) (dataSize : Z) :
  dataSizeOf req = Some dataSize -> 0 <= dataSize.
Proof.
  unfold dataSizeOf. destruct (file req); [|destruct (body req)];
    intros [= <-]; try apply len_nonneg.
Qed.

(** C10.  For every upload that carries data, in the single and in the
    multi-connection handler alike, the total time is the timestamp taken
    after the data was read minus the start timestamp the client declared
    (the receive timestamp when it declared none).  The speed is always a
    finite number that is not negative, never an infinity or [NaN].  When
    the total time is zero or negative no division is made: the speed is
    0 and is reported as ["0.000"].  Only when the total time is positive
    is [bytes * 8 / ((totalTime / 1000) * 1024 * 1024)] evaluated; then
    the divisor is not zero, and the string reported is the print of that
    quotient up to the rounding of binary64 arithmetic. *)
Theorem C10_upload_speed_is_guarded (req : Request) (received finished : Q)
  (dataSize : Z) :
  dataSizeOf req = Some dataSize ->
  let total := (finished - orDefault (uploadStart req) received)%Q in
  let divisor := (total / 1000 * 1024 * 1024)%Q in
  exists r m q,
    upload req received finished = Success r /\
    uploadMulti req received finished = MultiSuccess m /\
    totalTime r = total /\ totalDuration m = total /\
    speedMbps dataSize total = Finite q /\
    (0 <= q)%Q /\
    ((total <= 0)%Q ->
     q = 0%Q /\
     reportSpeedMbps r = "0.000" /\ multiSpeedMbps m = "0.000") /\
    ((0 < total)%Q ->
     ~ (divisor == 0)%Q /\
     q = (inject_Z dataSize * 8 / divisor)%Q /\
     printsWithin (reportSpeedMbps r) q (speedError q) 3 /\
     printsWithin (multiSpeedMbps m) q (speedError q) 3).
Proof.
  intros Hdata total divisor. unfold upload, uploadMulti. rewrite Hdata.
  fold total.
  destruct (Qlt_le_dec 0 total) as [Hpos | Hle].
  - destruct (speedMbps_positive dataSize total Hpos) as [Hq Hne].
    fold divisor in Hq, Hne.
    assert (H0 : (0 <= inject_Z dataSize * 8 / divisor)%Q).
    { apply quotient_nonneg; [|exact Hpos].
      apply (dataSizeOf_nonneg req), Hdata. }
    eexists _, _, (inject_Z dataSize * 8 / divisor)%Q.
    split; [reflexivity|]. split; [reflexivity|].
    cbn [totalTime totalDuration reportSpeedMbps multiSpeedMbps].
    rewrite Hq. cbn [numberToFixed].
    split; [reflexivity|]. split; [reflexivity|]. split; [reflexivity|].
    split; [exact H0|]. split.
    + intros Hle. exfalso. apply (Qlt_not_le _ _ Hpos Hle).
    + intros _. split; [exact Hne|]. split; [reflexivity|].
      split; apply printsWithin_exact, speedError_nonneg, H0.
  - eexists _, _, 0%Q.
    split; [reflexivity|]. split; [reflexivity|].
    cbn [totalTime totalDuration reportSpeedMbps multiSpeedMbps].
    rewrite (speedMbps_nonpositive _ _ Hle). cbn [numberToFixed].
    split; [reflexivity|]. split; [reflexivity|]. split; [reflexivity|].
    split; [apply Qle_refl|]. split.
    + intros _. split; [reflexivity|]. rewrite toFixed_zero. auto.
    + intros Hpos. exfalso. apply (Qlt_not_le _ _ Hpos Hle).
Qed.

Lemma C10_upload_speed_is_guarded_witness :
  let req := mkRequest None (Some [1; 2; 3]) (Some 1400%Q) None None None
               None in
  exists r m,
    upload req 1000%Q 1400%Q = Success r /\
    uploadMulti req 1000%Q 1400%Q = MultiSuccess m /\
    totalTime r = (1400 - 1400)%Q /\
    reportSpeedMbps r = "0.000" /\ multiSpeedMbps m = "0.000".
Proof.
  intros req.
  destruct (C10_upload_speed_is_guarded req 1000%Q 1400%Q 3 eq_refl)
    as (r & m & q & Hr & Hm & Ht & _ & _ & _ & Hzero & _).
  exists r, m. split; [exact Hr|]. split; [exact Hm|]. split; [exact Ht|].
  apply Hzero. vm_compute. discriminate.
Defined.

End UploadFacts.

(** ** More on the payload generator *)

Section PayloadMore.
Import Payload.

Lemma Qceiling_bound (n : Q) (i : Z) :
  (inject_Z i < n)%Q -> i < Qceiling n.
Proof.
  intros H. rewrite Zlt_Qlt. eapply Qlt_le_trans; [exact H|].
  apply Qle_ceiling.
Qed.

(** The fill loop, run with enough fuel from the index [i] on, stores the
    pattern at every index from [i] up to the size and nothing else. *)
Lemma fillLoop_spec (fuel : nat) (i : Z) (n : Q) (buffer : Buffer) :
  0 <= i -> (Z.to_nat (Qceiling n - i) <= fuel)%nat ->
  forall j : nat,
    fillLoop fuel i n buffer !! j
    = if (i <=? Z.of_nat j) && Qltb (inject_Z (Z.of_nat j)) n
         && (j <? length buffer)%nat
      then Some ((Z.of_nat j * 137 + 19) mod 256)
      else buffer !! j.
Proof.
  revert i buffer. induction fuel as [|fuel IH]; intros i buffer Hi Hfuel j.
  - simpl. destruct (i <=? Z.of_nat j) eqn:Hij; [|reflexivity].
    destruct (Qltb (inject_Z (Z.of_nat j)) n) eqn:Hjn; [|reflexivity].
    exfalso. apply Z.leb_le in Hij. apply Qltb_lt in Hjn.
    assert (Z.of_nat j < Qceiling n) by (apply Qceiling_bound, Hjn). lia.
  - simpl. destruct (Qltb (inject_Z i) n) eqn:Hlt.
    + apply Qltb_lt in Hlt.
      rewrite IH by (try lia; pose proof (Qceiling_bound n i Hlt); lia).
      rewrite length_insert.
      destruct (decide (Z.of_nat j = i)) as [<-|Hne].
      * rewrite Nat2Z.id.
        replace (Z.of_nat j + 1 <=? Z.of_nat j) with false by lia.
        replace (Z.of_nat j <=? Z.of_nat j) with true by lia.
        apply Qltb_lt in Hlt. rewrite Hlt. simpl.
        destruct (j <? length buffer)%nat eqn:Hjl.
        -- apply list_lookup_insert_eq. apply Nat.ltb_lt, Hjl.
        -- rewrite list_insert_ge; [reflexivity|].
           apply Nat.ltb_ge, Hjl.
      * rewrite list_lookup_insert_ne by lia.
        destruct (i <=? Z.of_nat j) eqn:Hij.
        -- replace (i + 1 <=? Z.of_nat j) with true by lia. reflexivity.
        -- replace (i + 1 <=? Z.of_nat j) with false by lia. reflexivity.
    + apply Qltb_ge in Hlt.
      destruct (i <=? Z.of_nat j) eqn:Hij; [|reflexivity].
      destruct (Qltb (inject_Z (Z.of_nat j)) n) eqn:Hjn; [|reflexivity].
      exfalso. apply Z.leb_le in Hij. apply Qltb_lt in Hjn.
      assert (inject_Z i <= inject_Z (Z.of_nat j))%Q by (rewrite <- Zle_Qle; lia).
      lra.
Qed.

Lemma ToIndex_lt (n : Q) (j : nat) :
  (0 <= n)%Q -> (j < ToIndex n)%nat -> (inject_Z (Z.of_nat j) < n)%Q.
Proof.
  intros Hn Hj. unfold ToIndex in Hj.
  apply Qlt_le_trans with (inject_Z (Qfloor n)); [|apply Qfloor_le].
  rewrite <- Zlt_Qlt. lia.
Qed.

(** What a call of [makeBuffer] that returns has made. *)
Lemma makeBuffer_content (sizeInBytes : Q) (pattern : string) (g : Gen)
  (buffer : Buffer) (g' : Gen) :
  makeBuffer sizeInBytes pattern g = (Ok buffer, g') ->
  Forall (fun b => 0 <= b < 256) buffer /\
  (pattern = "incompressible" ->
   forall (i : nat) (b : Z),
     buffer !! i = Some b -> b = (Z.of_nat i * 137 + 19) mod 256).
Proof.
  assert (Hrandom : forall g buffer g',
             randomBytes sizeInBytes g = (Ok buffer, g') ->
             Forall (fun b => 0 <= b < 256) buffer).
  { intros g0 b0 g0'. unfold randomBytes.
    destruct (validSize sizeInBytes); [|discriminate]. intros [= <- <-].
    apply Forall_forall. intros b Hb. apply list_elem_of_fmap in Hb as (i & -> & _).
    apply Z.mod_pos_bound. lia. }
  unfold makeBuffer.
  destruct (decide (pattern = "random")) as [->|Hr].
  { intros H. split; [eapply Hrandom, H|discriminate]. }
  destruct (decide (pattern = "compressible")) as [->|Hc].
  { unfold Buffer_alloc. destruct (validAlloc sizeInBytes); [|discriminate].
    intros [= <- <-]. split; [|discriminate].
    apply Forall_replicate. lia. }
  destruct (decide (pattern = "incompressible")) as [->|Hi].
  2:{ intros H. split; [eapply Hrandom, H|contradiction]. }
  unfold Buffer_alloc. destruct (validAlloc sizeInBytes) eqn:Hv; [|discriminate].
  apply validAlloc_spec in Hv as [Hn _].
  cbv beta iota.
  remember (fillLoop _ 0 sizeInBytes _) as filled eqn:Hfilled.
  intros [= <- <-].
  assert (Hat : forall (i : nat) (b : Z),
             filled !! i = Some b -> b = (Z.of_nat i * 137 + 19) mod 256).
  { intros i b Hib. rewrite Hfilled in Hib.
    rewrite fillLoop_spec in Hib by (unfold fillFuel; lia).
    rewrite length_replicate in Hib.
    destruct (decide (i < ToIndex sizeInBytes)%nat) as [Hlt|Hge].
    - pose proof (ToIndex_lt _ _ Hn Hlt) as Hq. apply Qltb_lt in Hq.
      apply Nat.ltb_lt in Hlt. rewrite Hq, Hlt in Hib.
      assert (E : (0 <=? Z.of_nat i) = true) by (apply Z.leb_le; lia).
      rewrite E in Hib. simpl in Hib.
      congruence.
    - replace (i <? ToIndex sizeInBytes)%nat with false in Hib
        by (symmetry; apply Nat.ltb_ge; lia).
      rewrite andb_false_r in Hib.
      apply lookup_replicate in Hib as [_ Hlt]. lia. }
  split; [|intros _; exact Hat].
  apply Forall_lookup. intros i b Hib. rewrite (Hat i b Hib).
  apply Z.mod_pos_bound. lia.
Qed.

Lemma cacheExact_coldStart (rng : nat -> Z) : cacheExact (coldStart rng).
Proof. intros q p b. simpl. rewrite lookup_empty. discriminate. Qed.

Lemma generateTestData_cacheExact (sizeInMB : Q) (pattern : string) (g : Gen) :
  cacheExact g -> cacheExact (snd (generateTestData sizeInMB pattern g)).
Proof.
  intros Hok. unfold generateTestData.
  destruct (testDataCache g !! cacheKey sizeInMB pattern) eqn:Hhit; [exact Hok|].
  destruct (makeBuffer _ pattern g) as [[buffer|e] g'] eqn:Hmk; simpl.
  - pose proof (makeBuffer_content _ _ _ _ _ Hmk) as Hcontent.
    apply makeBuffer_spec in Hmk as (_ & Hcache & _).
    intros q p b. simpl. rewrite Hcache.
    destruct (decide (cacheKey sizeInMB pattern = (q, p))) as [E|NE].
    + rewrite E, lookup_insert_eq. intros [= <-].
      injection E as <- <-. exact Hcontent.
    + rewrite lookup_insert_ne by exact NE. apply Hok.
  - unfold makeBuffer, randomBytes, Buffer_alloc in Hmk.
    destruct (validSize _), (validAlloc _); repeat case_decide; simplify_eq;
      exact Hok.
Qed.

Lemma generateTestData_content (sizeInMB : Q) (pattern : string) (g : Gen)
  (buffer : Buffer) (g' : Gen) :
  cacheExact g ->
  generateTestData sizeInMB pattern g = (Ok buffer, g') ->
  Forall (fun b => 0 <= b < 256) buffer /\
  (pattern = "incompressible" ->
   forall (i : nat) (b : Z),
     buffer !! i = Some b -> b = (Z.of_nat i * 137 + 19) mod 256).
Proof.
  intros Hex. unfold generateTestData.
  destruct (testDataCache g !! cacheKey sizeInMB pattern) eqn:Hhit.
  - intros [= <- <-]. apply (Hex _ _ _ Hhit).
  - destruct (makeBuffer _ pattern g) as [[b|e] g1] eqn:Hmk; [|discriminate].
    intros [= <- <-]. eapply makeBuffer_content, Hmk.
Qed.

(** A second request for a size and pattern is served from the cache: it
    returns the very buffer the first one returned, also when the size is
    written differently, and leaves the generator as it is. *)
Theorem generator_second_call_is_a_hit (s s' : Q) (pattern : string)
  (g : Gen) (buffer : Buffer) (g' : Gen) :
  generateTestData s pattern g = (Ok buffer, g') ->
  (s' == s)%Q ->
  generateTestData s' pattern g' = (Ok buffer, g').
Proof.
  intros Hfirst Heq.
  assert (Hkey : cacheKey s' pattern = cacheKey s pattern).
  { unfold cacheKey. f_equal. apply Q2Qc_eq_iff, Heq. }
  assert (Hin : testDataCache g' !! cacheKey s pattern = Some buffer).
  { revert Hfirst. unfold generateTestData.
    destruct (testDataCache g !! cacheKey s pattern) eqn:Hhit.
    - intros [= <- <-]. exact Hhit.
    - destruct (makeBuffer _ pattern g) as [[b|e] g1]; [|discriminate].
      intros [= <- <-]. simpl. apply lookup_insert_eq. }
  unfold generateTestData. rewrite Hkey, Hin. reflexivity.
Qed.

Lemma generator_second_call_is_a_hit_witness :
  let g := coldStart (fun i => Z.of_nat i) in
  exists g',
    generateTestData (3 # 1048576) "random" g = (Ok [0; 1; 2], g') /\
    generateTestData (6 # 2097152) "random" g' = (Ok [0; 1; 2], g').
Proof.
  intros g. eexists. split; [vm_compute; reflexivity|].
  apply (generator_second_call_is_a_hit (3 # 1048576) (6 # 2097152) "random" g).
  - vm_compute. reflexivity.
  - reflexivity.
Defined.

(** The pattern ["incompressible"]: for a size the runtime accepts, the
    buffer returned holds [(i * 137 + 19) mod 256] at every index [i]
    below its length [floor(sizeInMB * 1024 * 1024)], whether the buffer
    was cached or is made by the loop, which runs once more than the
    buffer is long when the size has a fraction. *)
Theorem generator_incompressible_bytes (sizeInMB : Q) (g : Gen) :
  cacheOk g -> cacheExact g ->
  validSize (sizeInMB * 1024 * 1024)%Q = true ->
  exists buffer g',
    generateTestData sizeInMB "incompressible" g = (Ok buffer, g') /\
    length buffer = ToIndex (sizeInMB * 1024 * 1024)%Q /\
    forall i : nat,
      (i < ToIndex (sizeInMB * 1024 * 1024)%Q)%nat ->
      buffer !! i = Some ((Z.of_nat i * 137 + 19) mod 256).
Proof.
  intros Hok Hex Hv.
  destruct (generateTestData_returns sizeInMB "incompressible" g Hv)
    as (buffer & g' & E).
  exists buffer, g'. split; [exact E|].
  destruct (generateTestData_spec _ _ _ _ _ Hok E) as [Hl _].
  destruct (generateTestData_content _ _ _ _ _ Hex E) as [_ Hat].
  split; [exact Hl|]. intros i Hi.
  destruct (buffer !! i) as [b|] eqn:Hb.
  - rewrite (Hat eq_refl i b Hb). reflexivity.
  - apply lookup_ge_None in Hb. lia.
Qed.

Lemma generator_incompressible_bytes_witness :
  fst (generateTestData (7 # 2097152) "incompressible"
         (coldStart (fun _ => 0)))
  = Ok [19; 156; 37] /\
  exists buffer g',
    generateTestData (7 # 2097152) "incompressible" (coldStart (fun _ => 0))
    = (Ok buffer, g') /\
    length buffer = 3%nat.
Proof.
  split; [vm_compute; reflexivity|].
  destruct (generator_incompressible_bytes (7 # 2097152)
              (coldStart (fun _ => 0)) (cacheOk_coldStart _)
              (cacheExact_coldStart _) eq_refl)
    as (buffer & g' & E & Hl & _).
  exists buffer, g'. split; [exact E|exact Hl].
Defined.

Lemma list_eq_same_content (b1 b2 : Buffer) (f : nat -> Z) :
  length b1 = length b2 ->
  (forall i b, b1 !! i = Some b -> b = f i) ->
  (forall i b, b2 !! i = Some b -> b = f i) ->
  b1 = b2.
Proof.
  intros Hl H1 H2. apply list_eq. intros i.
  destruct (b1 !! i) as [x|] eqn:E1; destruct (b2 !! i) as [y|] eqn:E2.
  - rewrite (H1 _ _ E1), (H2 _ _ E2). reflexivity.
  - apply lookup_lt_Some in E1. apply lookup_ge_None in E2. lia.
  - apply lookup_lt_Some in E2. apply lookup_ge_None in E1. lia.
  - reflexivity.
Qed.

(** The two deterministic patterns do not depend on the state of the
    process: for the same size, any two calls, in any two states of the
    cache and of the entropy source, return equal buffers. *)
Theorem generator_deterministic_patterns (sizeInMB : Q) (pattern : string)
  (g1 g2 : Gen) (b1 b2 : Buffer) (g1' g2' : Gen) :
  pattern = "compressible" \/ pattern = "incompressible" ->
  cacheOk g1 -> cacheExact g1 -> cacheOk g2 -> cacheExact g2 ->
  generateTestData sizeInMB pattern g1 = (Ok b1, g1') ->
  generateTestData sizeInMB pattern g2 = (Ok b2, g2') ->
  b1 = b2.
Proof.
  intros Hp Hok1 Hex1 Hok2 Hex2 E1 E2.
  destruct (generateTestData_spec _ _ _ _ _ Hok1 E1) as [Hl1 Hc1].
  destruct (generateTestData_spec _ _ _ _ _ Hok2 E2) as [Hl2 Hc2].
  destruct (generateTestData_content _ _ _ _ _ Hex1 E1) as [_ Hi1].
  destruct (generateTestData_content _ _ _ _ _ Hex2 E2) as [_ Hi2].
  destruct Hp as [-> | ->].
  - apply (list_eq_same_content b1 b2 (fun _ => 65)); [congruence| |].
    + intros i b Hb. specialize (Hc1 eq_refl).
      rewrite Forall_lookup in Hc1. exact (Hc1 i b Hb).
    + intros i b Hb. specialize (Hc2 eq_refl).
      rewrite Forall_lookup in Hc2. exact (Hc2 i b Hb).
  - apply (list_eq_same_content b1 b2
             (fun i => (Z.of_nat i * 137 + 19) mod 256)); [congruence| |]; auto.
Qed.

Lemma generator_deterministic_patterns_witness :
  fst (generateTestData (5 # 1048576) "incompressible"
         (coldStart (fun _ => 0)))
  = fst (generateTestData (5 # 1048576) "incompressible"
           (snd (generateTestData (5 # 1048576) "random"
                   (coldStart (fun i => Z.of_nat i))))).
Proof.
  set (g1 := coldStart (fun _ => 0)).
  set (g2 := snd (generateTestData (5 # 1048576) "random"
                    (coldStart (fun i => Z.of_nat i)))).
  destruct (generateTestData (5 # 1048576) "incompressible" g1)
    as [[b1|e1] g1'] eqn:E1; [|vm_compute in E1; discriminate E1].
  destruct (generateTestData (5 # 1048576) "incompressible" g2)
    as [[b2|e2] g2'] eqn:E2; [|vm_compute in E2; discriminate E2].
  simpl. f_equal.
  apply (generator_deterministic_patterns (5 # 1048576) "incompressible"
           g1 g2 b1 b2 g1' g2'); auto.
  - apply cacheOk_coldStart.
  - apply cacheExact_coldStart.
  - apply generateTestData_cacheOk, cacheOk_coldStart.
  - apply generateTestData_cacheExact, cacheExact_coldStart.
Defined.

Lemma validAlloc_negative (size : Q) :
  (size < 0)%Q -> validAlloc size = false.
Proof.
  intros H. destruct (validAlloc size) eqn:Hv; [|reflexivity].
  apply validAlloc_spec in Hv. lra.
Qed.

Lemma validSize_above (size : Q) :
  (inject_Z kMaxLength < size)%Q -> validSize size = false.
Proof.
  intros H. destruct (validSize size) eqn:Hv; [|reflexivity].
  apply validSize_spec in Hv. lra.
Qed.

(** An uncached chunk above the limit of [crypto.randomBytes] makes the
    generator throw when the pattern draws random bytes. *)
Lemma generator_refuses_bad_sizes_aux (sizeInMB : Q) (pattern : string)
  (g : Gen) :
  testDataCache g !! cacheKey sizeInMB pattern = None ->
  pattern <> "compressible" -> pattern <> "incompressible" ->
  (inject_Z kMaxLength < sizeInMB * 1024 * 1024)%Q ->
  generateTestData sizeInMB pattern g = (Throw "ERR_OUT_OF_RANGE", g).
Proof.
  intros Hmiss Hc Hi Hbad. unfold generateTestData. rewrite Hmiss.
  rewrite makeBuffer_throws; [reflexivity|].
  right. split; [apply validSize_above, Hbad|]. split; assumption.
Qed.

(** A size the runtime refuses makes the generator throw when it is not
    cached, and the throw leaves the cache and the entropy source
    untouched: a negative byte count under every pattern, and a byte count
    above [2^31 - 1] under the patterns that draw random bytes (["random"]
    and every pattern the [switch] does not know). *)
Theorem generator_refuses_bad_sizes (sizeInMB : Q) (pattern : string)
  (g : Gen) :
  testDataCache g !! cacheKey sizeInMB pattern = None ->
  (sizeInMB * 1024 * 1024 < 0)%Q \/
  (pattern <> "compressible" /\ pattern <> "incompressible" /\
   (inject_Z kMaxLength < sizeInMB * 1024 * 1024)%Q) ->
  generateTestData sizeInMB pattern g = (Throw "ERR_OUT_OF_RANGE", g).
Proof.
  intros Hmiss [Hneg | (Hc & Hi & Hbig)].
  - unfold generateTestData. rewrite Hmiss.
    rewrite makeBuffer_throws; [reflexivity|].
    left. apply validAlloc_negative, Hneg.
  - apply generator_refuses_bad_sizes_aux; assumption.
Qed.

Lemma generator_refuses_bad_sizes_witness :
  generateTestData (-1) "compressible" (coldStart (fun _ => 0))
  = (Throw "ERR_OUT_OF_RANGE", coldStart (fun _ => 0)) /\
  generateTestData 2048 "random" (coldStart (fun _ => 0))
  = (Throw "ERR_OUT_OF_RANGE", coldStart (fun _ => 0)) /\
  generateTestData 2048 "zigzag" (coldStart (fun _ => 0))
  = (Throw "ERR_OUT_OF_RANGE", coldStart (fun _ => 0)).
Proof.
  split; [|split].
  - apply generator_refuses_bad_sizes; [reflexivity|].
    left. reflexivity.
  - apply generator_refuses_bad_sizes; [reflexivity|].
    right. split; [discriminate|]. split; [discriminate|reflexivity].
  - apply generator_refuses_bad_sizes; [reflexivity|].
    right. split; [discriminate|]. split; [discriminate|reflexivity].
Defined.

Lemma generateTestData_keeps (sizeInMB : Q) (pattern : string) (g : Gen)
  (key : Qc * string) (buffer : Buffer) :
  testDataCache g !! key = Some buffer ->
  testDataCache (snd (generateTestData sizeInMB pattern g)) !! key
  = Some buffer.
Proof.
  intros Hin. unfold generateTestData.
  destruct (testDataCache g !! cacheKey sizeInMB pattern) eqn:Hhit;
    [exact Hin|].
  destruct (makeBuffer _ pattern g) as [[b|e] g1] eqn:Hmk; simpl.
  - apply makeBuffer_spec in Hmk as (_ & Hcache & _). rewrite Hcache.
    rewrite lookup_insert_ne; [exact Hin|]. congruence.
  - unfold makeBuffer, randomBytes, Buffer_alloc in Hmk.
    destruct (validSize _), (validAlloc _); repeat case_decide; simplify_eq;
      exact Hin.
Qed.

Lemma generateTestData_drawn (sizeInMB : Q) (pattern : string) (g : Gen) :
  (drawn g <= drawn (snd (generateTestData sizeInMB pattern g)))%nat /\
  entropy (snd (generateTestData sizeInMB pattern g)) = entropy g.
Proof.
  unfold generateTestData.
  destruct (testDataCache g !! cacheKey sizeInMB pattern); [auto|].
  unfold makeBuffer, randomBytes, Buffer_alloc.
  destruct (validSize _), (validAlloc _); repeat case_decide; simpl;
    auto with lia.
Qed.

(** The cache has no eviction: no call of the generator removes or
    replaces an entry, so a buffer once handed out for a size and pattern
    is the one every later request for them gets; and the entropy consumed
    never decreases. *)
Theorem generator_cache_only_grows (calls : list (Q * string)) (g : Gen)
  (key : Qc * string) (buffer : Buffer) :
  let g' := foldl (fun g c => snd (generateTestData (fst c) (snd c) g))
              g calls in
  testDataCache g !! key = Some buffer ->
  testDataCache g' !! key = Some buffer /\ (drawn g <= drawn g')%nat.
Proof.
  revert g. induction calls as [|[s p] calls IH]; intros g g' Hin.
  - auto.
  - subst g'. simpl.
    destruct (IH (snd (generateTestData s p g))) as [Hk Hd].
    { apply generateTestData_keeps, Hin. }
    split; [exact Hk|].
    pose proof (generateTestData_drawn s p g) as [Hd' _]. simpl in Hd. lia.
Qed.

Lemma generator_cache_only_grows_witness :
  let g := snd (generateTestData (3 # 1048576) "compressible"
                  (coldStart (fun _ => 0))) in
  let g' := foldl (fun g c => snd (generateTestData (fst c) (snd c) g)) g
              [((4 # 1048576)%Q, "random"); ((3 # 1048576)%Q, "random")] in
  testDataCache g' !! cacheKey (3 # 1048576) "compressible"
  = Some [65; 65; 65].
Proof.
  intros g g'.
  apply (generator_cache_only_grows
           [((4 # 1048576)%Q, "random"); ((3 # 1048576)%Q, "random")] g).
  vm_compute. reflexivity.
Defined.

Lemma generateTestData_caches (sizeInMB : Q) (pattern : string) (g : Gen) :
  validSize (sizeInMB * 1024 * 1024)%Q = true ->
  is_Some (testDataCache (snd (generateTestData sizeInMB pattern g))
             !! cacheKey sizeInMB pattern).
Proof.
  intros Hv. unfold generateTestData.
  destruct (testDataCache g !! cacheKey sizeInMB pattern) eqn:Hhit;
    [simpl; rewrite Hhit; eauto|].
  destruct (makeBuffer_returns _ pattern g Hv) as (b & g1 & ->). simpl.
  rewrite lookup_insert_eq. eauto.
Qed.

Lemma pregenerate_keeps (sizes : list Q) (g : Gen) (key : Qc * string)
  (buffer : Buffer) :
  testDataCache g !! key = Some buffer ->
  testDataCache
    (foldl (fun g size =>
              snd (generateTestData size "compressible"
                     (snd (generateTestData size "random" g))))
       g sizes) !! key = Some buffer.
Proof.
  revert g. induction sizes as [|t sizes IH]; intros g Hb; [exact Hb|].
  simpl. apply IH. do 2 apply generateTestData_keeps. exact Hb.
Qed.

Lemma pregenerate_caches (sizes : list Q) (g : Gen) (size : Q)
  (pattern : string) :
  Forall (fun s => validSize (s * 1024 * 1024)%Q = true) sizes ->
  size ∈ sizes -> pattern = "random" \/ pattern = "compressible" ->
  is_Some (testDataCache
             (foldl (fun g size =>
                       snd (generateTestData size "compressible"
                              (snd (generateTestData size "random" g))))
                g sizes) !! cacheKey size pattern).
Proof.
  intros Hv. revert g. induction Hv as [|s sizes Hs Hv IH]; intros g Hin Hp.
  - apply elem_of_nil in Hin. contradiction.
  - simpl. apply elem_of_cons in Hin as [->|Hin]; [|apply IH; auto].
    set (g1 := snd (generateTestData s "random" g)).
    set (g2 := snd (generateTestData s "compressible" g1)).
    assert (H2 : is_Some (testDataCache g2 !! cacheKey s pattern)).
    { destruct Hp as [-> | ->].
      - destruct (generateTestData_caches s "random" g Hs) as [b Hb].
        exists b. apply generateTestData_keeps, Hb.
      - apply generateTestData_caches, Hs. }
    destruct H2 as [b Hb]. exists b. apply pregenerate_keeps, Hb.
Qed.

Lemma generateTestData_hit (sizeInMB : Q) (pattern : string) (g : Gen)
  (buffer : Buffer) :
  testDataCache g !! cacheKey sizeInMB pattern = Some buffer ->
  generateTestData sizeInMB pattern g = (Ok buffer, g).
Proof. intros H. unfold generateTestData. rewrite H. reflexivity. Qed.

Lemma commonSizes_valid :
  Forall (fun s => validSize (s * 1024 * 1024)%Q = true) commonSizes.
Proof. unfold commonSizes. repeat (constructor; [reflexivity|]). constructor. Qed.

(** After the pre-generation at load time every common size is cached
    under both pre-generated patterns: such a request is served without
    generating anything, and leaves the generator as it is. *)
Theorem generator_pregenerated_sizes_hit (g : Gen) (size : Q)
  (pattern : string) :
  size ∈ commonSizes ->
  pattern = "random" \/ pattern = "compressible" ->
  exists buffer,
    generateTestData size pattern (pregenerate g)
    = (Ok buffer, pregenerate g).
Proof.
  intros Hin Hp.
  destruct (pregenerate_caches commonSizes g size pattern
              commonSizes_valid Hin Hp) as [b Hb].
  exists b. apply generateTestData_hit. exact Hb.
Qed.

Lemma generator_pregenerated_sizes_hit_witness :
  exists buffer,
    generateTestData 25 "compressible" (pregenerate (coldStart (fun _ => 0)))
    = (Ok buffer, pregenerate (coldStart (fun _ => 0))).
Proof.
  apply generator_pregenerated_sizes_hit.
  - unfold commonSizes. do 6 apply list_elem_of_further.
    apply list_elem_of_here.
  - right. reflexivity.
Defined.

End PayloadMore.

(** ** More on the fixed-size download *)

Section DownloadMore.
Import Payload Download.

(** At every moment of a download, under any backpressure, failure or
    disconnect, the bytes written so far are the first [offset] bytes of
    the buffer: nothing is skipped, repeated or reordered. *)
Theorem download_writes_a_prefix (data : Buffer) (destroyed : bool)
  (w : writeOutcome) (es : list event) :
  let s := run (sendChunk destroyed w (start data)) es in
  concat (map snd (writes s)) = take (Z.to_nat (offset s)) data /\
  offset s = bytesWritten (writes s) /\
  0 <= offset s <= len data.
Proof.
  intros s.
  destruct (Inv_run data _ es (Inv_sendChunk data destroyed w _
                                 (Inv_start data)))
    as [_ Hb Ho _ Hy He].
  split; [exact Hy|]. split; [exact Ho|]. exact Hb.
Qed.

Lemma finished_frozen (s : Session) (es : list event) :
  isFinished s = true ->
  writes (run s es) = writes s /\ offset (run s es) = offset s /\
  ended (run s es) = ended s /\ errors (run s es) = errors s /\
  isFinished (run s es) = true.
Proof.
  revert s. induction es as [|e es IH]; intros s Hf; simpl; [auto|].
  assert (Hstep : writes (step s e) = writes s /\ offset (step s e) = offset s
                  /\ ended (step s e) = ended s /\ errors (step s e) = errors s
                  /\ isFinished (step s e) = true).
  { destruct e as [destroyed w|]; simpl; auto.
    destruct (waiting s); auto. unfold sendChunk. rewrite Hf. simpl. auto. }
  destruct Hstep as (Hw & Ho & He & Hr & Hf').
  destruct (IH (step s e) Hf') as (Hw' & Ho' & He' & Hr' & Hf'').
  repeat split; congruence.
Qed.

(** Cancellation: once a close, aborted or error listener has run, no
    further chunk is written, the offset stays where it is, and a response
    that was not ended is never ended by the handler. *)
Theorem download_close_stops_the_stream (data : Buffer) (destroyed : bool)
  (w : writeOutcome) (es es' : list event) :
  let s := run (sendChunk destroyed w (start data)) es in
  let s' := run s (Close :: es') in
  writes s' = writes s /\ offset s' = offset s /\ ended s' = ended s /\
  isFinished s' = true.
Proof.
  intros s s'. subst s'. simpl.
  destruct (finished_frozen (cleanup s) es' eq_refl) as (Hw & Ho & He & _ & Hf).
  auto.
Qed.

(** A write that throws finishes the session on the spot: the error is
    logged once, [res.end()] is not called, the chunk is not counted, and
    nothing is written at any later event. *)
Theorem download_write_error_finishes (data : Buffer) (destroyed0 : bool)
  (w0 : writeOutcome) (es es' : list event) :
  let s := run (sendChunk destroyed0 w0 (start data)) es in
  let s' := run (sendChunk false WriteFails s) es' in
  isFinished s = false -> offset s < len data ->
  isFinished s' = true /\ errors s' = S (errors s) /\
  writes s' = writes s /\ offset s' = offset s /\ ended s' = false.
Proof.
  intros s s' Hf Hlt.
  pose proof (Inv_run data _ es (Inv_sendChunk data destroyed0 w0 _
                                   (Inv_start data))) as HI.
  fold s in HI. destruct HI as [Hd _ _ _ _ He].
  assert (Hcall : sendChunk false WriteFails s
                  = mkSession (testData s) (offset s) true (writes s)
                      (ended s) (S (errors s)) None).
  { unfold sendChunk. rewrite Hf. simpl.
    replace (len (testData s) <=? offset s) with false by (rewrite Hd; lia).
    reflexivity. }
  subst s'. rewrite Hcall.
  destruct (finished_frozen (mkSession (testData s) (offset s) true (writes s)
                               (ended s) (S (errors s)) None) es' eq_refl)
    as (Hw & Ho & He' & Hr & Hf').
  simpl in *. repeat split; auto.
  rewrite He'. destruct (ended s) eqn:E; [|reflexivity].
  destruct (He eq_refl) as [_ Hfin]. congruence.
Qed.

Lemma download_write_error_finishes_witness :
  isFinished (run (sendChunk false Flushed (start (replicate (Z.to_nat 70000) 9))) [])
  = false /\
  errors (run (sendChunk false WriteFails
                 (run (sendChunk false Flushed (start (replicate (Z.to_nat 70000) 9))) []))
            [Resume false Flushed]) = 1%nat.
Proof.
  assert (Hf : isFinished (run (sendChunk false Flushed
                                  (start (replicate (Z.to_nat 70000) 9))) []) = false)
    by (vm_compute; reflexivity).
  split; [exact Hf|].
  destruct (download_write_error_finishes (replicate (Z.to_nat 70000) 9) false Flushed
              [] [Resume false Flushed] Hf) as (_ & He & _).
  { vm_compute. reflexivity. }
  rewrite He. vm_compute. reflexivity.
Defined.

Lemma ended_persists (s : Session) (es : list event) :
  ended s = true -> ended (run s es) = true.
Proof.
  revert s. induction es as [|e es IH]; intros s He; simpl; [exact He|].
  apply IH. destruct e as [destroyed w|]; simpl; [|exact He].
  destruct (waiting s); [|exact He]. unfold sendChunk.
  destruct (isFinished s || destroyed); [exact He|].
  destruct (len (testData s) <=? offset s); [reflexivity|].
  destruct w; exact He.
Qed.

Lemma resumes_complete (data : Buffer) (ws : list writeOutcome) (s : Session) :
  Inv data s -> isFinished s = false -> is_Some (waiting s) ->
  Forall (fun w => w <> WriteFails) ws ->
  1 <= len ws -> len data - offset s <= chunkSize * (len ws - 1) ->
  ended (run s (map (Resume false) ws)) = true.
Proof.
  revert s. induction ws as [|w ws IH]; intros s HI Hf [k Hk] Hok H1 Hn.
  { unfold len in H1. simpl in H1. lia. }
  inversion Hok as [|? ? Hw Hok']; subst.
  pose proof HI as [Hd Hb _ _ _ _].
  change (run s (map (Resume false) (w :: ws)))
    with (run (step s (Resume false w)) (map (Resume false) ws)).
  unfold step. rewrite Hk. unfold sendChunk. rewrite Hf. cbn [orb].
  destruct (len (testData s) <=? offset s) eqn:Hend.
  { apply ended_persists. reflexivity. }
  apply Z.leb_gt in Hend.
  assert (HI' : forall k', Inv data
            (mkSession (testData s)
               (offset s + len (slice (testData s) (offset s)
                                  (Z.min (offset s + chunkSize)
                                     (len (testData s)))))
               (isFinished s)
               (writes s ++ [(offset s,
                              slice (testData s) (offset s)
                                (Z.min (offset s + chunkSize)
                                   (len (testData s))))])
               (ended s) (errors s) k')).
  { intros k'. apply Inv_write; auto. }
  assert (Hlen : len (slice (testData s) (offset s)
                        (Z.min (offset s + chunkSize) (len (testData s))))
                 = Z.min (offset s + chunkSize) (len (testData s)) - offset s).
  { apply slice_len; unfold chunkSize; lia. }
  assert (Hws : len (w :: ws) = len ws + 1).
  { unfold len. simpl length. lia. }
  rewrite Hd in *. rewrite Hf in HI'.
  assert (H1' : 1 <= len ws).
  { destruct ws; [|unfold len; simpl length; lia].
    change (len [w]) with 1 in Hn. unfold chunkSize in *. lia. }
  assert (Hn' : len data
                - (offset s + len (slice data (offset s)
                                     (Z.min (offset s + chunkSize) (len data))))
                <= chunkSize * (len ws - 1)).
  { rewrite Hlen. unfold chunkSize in *. lia. }
  destruct w; [| |contradiction].
  - apply IH; cbn [isFinished waiting offset]; eauto.
  - apply IH; cbn [isFinished waiting offset]; eauto.
Qed.

(** Progress: with a response that stays writable and no disconnect, a
    download of [N] bytes ends the response once [sendChunk] has run
    [ceil(N / 65536) + 1] times, however the writes alternate between
    flushed and queued. *)
Theorem download_completes (data : Buffer) (w0 : writeOutcome)
  (ws : list writeOutcome) :
  Forall (fun w => w <> WriteFails) (w0 :: ws) ->
  len data <= 64 * 1024 * len ws ->
  let s := run (sendChunk false w0 (start data)) (map (Resume false) ws) in
  ended s = true /\ concat (map snd (writes s)) = data.
Proof.
  intros Hok Hn s.
  assert (Hend : ended s = true).
  { subst s. inversion Hok as [|? ? Hw0 Hok']; subst.
    unfold sendChunk. cbn [isFinished start orb testData offset].
    destruct (len data <=? 0) eqn:Hz.
    { apply ended_persists. reflexivity. }
    apply Z.leb_gt in Hz.
    assert (Hlen : len (slice data 0 (Z.min (0 + chunkSize) (len data)))
                   = Z.min (0 + chunkSize) (len data) - 0).
    { apply slice_len; unfold chunkSize; lia. }
    assert (H1 : 1 <= len ws).
    { destruct ws; [|unfold len; simpl length; lia].
      change (len []) with 0 in Hn. lia. }
    assert (Hn' : len data
                  - (0 + len (slice data 0 (Z.min (0 + chunkSize) (len data))))
                  <= chunkSize * (len ws - 1)).
    { rewrite Hlen. unfold chunkSize. lia. }
    destruct w0; [| |contradiction].
    - apply (resumes_complete data); cbn [isFinished waiting offset]; eauto.
      apply (Inv_write data (start data) (Some Immediate) (Inv_start data)
               eq_refl). simpl. lia.
    - apply (resumes_complete data); cbn [isFinished waiting offset]; eauto.
      apply (Inv_write data (start data) (Some Drain) (Inv_start data)
               eq_refl). simpl. lia. }
  split; [exact Hend|].
  destruct (Inv_run data _ (map (Resume false) ws)
              (Inv_sendChunk data false w0 _ (Inv_start data)))
    as [_ _ _ _ Hy He].
  fold s in Hy, He. destruct (He Hend) as [Hfull _].
  rewrite Hy, Hfull. unfold len. rewrite Nat2Z.id. apply firstn_all.
Qed.

Lemma download_completes_witness :
  let data := replicate (Z.to_nat 70000) 7 in
  let s := run (sendChunk false Buffered (start data))
             (map (Resume false) [Flushed; Buffered]) in
  ended s = true /\ concat (map snd (writes s)) = data.
Proof.
  intros data s.
  apply (download_completes data Buffered [Flushed; Buffered]).
  - repeat constructor; discriminate.
  - vm_compute. discriminate.
Defined.

(** A size in the admitted range is never refused by the validation or
    by the generator: a buffer of [floor(size * 1024 * 1024)] bytes,
    between 104857 and 10485760, is generated (and cached).  When the
    pattern is a legal header value the handler announces that length as
    [Content-Length] and starts the stream on the buffer; otherwise
    [res.setHeader("X-Pattern", pattern)] throws and the reply is the 500
    error, after the buffer was generated. *)
Theorem download_valid_size_streams (size : Q) (pattern : option string)
  (destroyed : bool) (w : writeOutcome) (g : Gen) :
  cacheOk g -> (0.1 <= size <= 10)%Q ->
  exists data g',
    generateTestData size (orString pattern "random") g = (Ok data, g') /\
    len data = Qfloor (size * 1024 * 1024) /\
    104857 <= len data <= 10485760 /\
    cacheOk g' /\
    handler (Some size) pattern destroyed w g
    = (if validHeaderValue (orString pattern "random")
       then Stream (Qfloor (size * 1024 * 1024))
              (sendChunk destroyed w (start data))
       else Json 500 "Failed to generate test data", g').
Proof.
  intros Hok [Hlo Hhi].
  destruct (generateTestData_returns size (orString pattern "random") g)
    as (data & g' & Egen).
  { apply validSize_spec. unfold kMaxLength. split.
    - apply Qle_trans with (0.1 * 1024 * 1024)%Q; [discriminate|].
      do 2 (apply Qmult_le_compat_r; [|discriminate]). exact Hlo.
    - apply Qle_trans with (10 * 1024 * 1024)%Q; [|discriminate].
      do 2 (apply Qmult_le_compat_r; [|discriminate]). exact Hhi. }
  destruct (generateTestData_spec _ _ _ _ _ Hok Egen) as [Hl _].
  assert (Hlo' : 104857 <= Qfloor (size * 1024 * 1024)).
  { change 104857 with (Qfloor (0.1 * 1024 * 1024)).
    apply Qfloor_resp_le. lra. }
  assert (Hhi' : Qfloor (size * 1024 * 1024) <= 10485760).
  { change 10485760 with (Qfloor (10 * 1024 * 1024)).
    apply Qfloor_resp_le. lra. }
  assert (Hlen : len data = Qfloor (size * 1024 * 1024)).
  { unfold len. rewrite Hl. unfold ToIndex. lia. }
  exists data, g'. split; [exact Egen|]. split; [exact Hlen|].
  split; [lia|]. split; [eapply generateTestData_cacheOk_pair; eauto|].
  unfold handler.
  pose proof Hlo as Hlo2. pose proof Hhi as Hhi2.
  apply Qltb_ge in Hlo2, Hhi2. rewrite Hlo2, Hhi2. simpl.
  rewrite Egen, Hlen.
  destruct (validHeaderValue (orString pattern "random")); reflexivity.
Qed.

Lemma download_valid_size_streams_witness :
  (exists data g',
     handler (Some 2.5%Q) None false Flushed (coldStart (fun _ => 0))
     = (Stream 2621440 (sendChunk false Flushed (start data)), g')) /\
  (exists g',
     handler (Some 2.5%Q) (Some (String (ascii_of_nat 10) "compressible"))
       false Flushed (coldStart (fun _ => 0))
     = (Json 500 "Failed to generate test data", g')).
Proof.
  split.
  - destruct (download_valid_size_streams 2.5 None false Flushed
                (coldStart (fun _ => 0)) (cacheOk_coldStart _))
      as (data & g' & _ & _ & _ & _ & E); [split; discriminate|].
    exists data, g'. exact E.
  - destruct (download_valid_size_streams 2.5
                (Some (String (ascii_of_nat 10) "compressible"))
                false Flushed
                (coldStart (fun _ => 0)) (cacheOk_coldStart _))
      as (data & g' & _ & _ & _ & _ & E); [split; discriminate|].
    exists g'. exact E.
Defined.

Lemma fullChunks_sendChunk (data : Buffer) (destroyed : bool)
  (w : writeOutcome) (s : Session) :
  Inv data s -> fullChunks data s ->
  fullChunks data (sendChunk destroyed w s).
Proof.
  intros HI Hfull. pose proof HI as [Hd Hb _ _ _ _].
  unfold sendChunk. destruct (isFinished s || destroyed); [exact Hfull|].
  destruct (len (testData s) <=? offset s) eqn:Hend; [exact Hfull|].
  apply Z.leb_gt in Hend. rewrite Hd in *.
  assert (Hlen : len (slice data (offset s)
                        (Z.min (offset s + chunkSize) (len data)))
                 = Z.min (offset s + chunkSize) (len data) - offset s).
  { apply slice_len; unfold chunkSize; lia. }
  assert (Hnew : forall k,
             fullChunks data
               (mkSession data
                  (offset s + len (slice data (offset s)
                                     (Z.min (offset s + chunkSize) (len data))))
                  (isFinished s)
                  (writes s ++ [(offset s,
                                 slice data (offset s)
                                   (Z.min (offset s + chunkSize) (len data)))])
                  (ended s) (errors s) k)).
  { intros k i c. cbn [writes offset]. intros Hi Hcase.
    rewrite length_app in Hcase. simpl in Hcase.
    destruct (decide (i < length (writes s))%nat) as [Hlt|Hge].
    - rewrite lookup_app_l in Hi by exact Hlt. apply (Hfull i c Hi). right. lia.
    - rewrite lookup_app_r in Hi by lia.
      destruct (i - length (writes s))%nat eqn:Hz; [|destruct n; discriminate].
      injection Hi as <-. cbn [snd]. rewrite Hlen in *.
      destruct Hcase as [Hcase|Hcase]; [lia|]. unfold chunkSize in *. lia. }
  destruct w; auto.
Qed.

Lemma fullChunks_run (data : Buffer) (es : list event) (s : Session) :
  Inv data s -> fullChunks data s -> fullChunks data (run s es).
Proof.
  revert s. induction es as [|e es IH]; intros s HI Hfull; [exact Hfull|].
  change (run s (e :: es)) with (run (step s e) es).
  apply IH; [apply Inv_step, HI|].
  destruct e as [destroyed w|]; simpl; [|exact Hfull].
  destruct (waiting s); [|exact Hfull].
  apply fullChunks_sendChunk; assumption.
Qed.

Lemma bytesWritten_full (ws : list (Z * Buffer)) :
  Forall (fun c => len (snd c) = chunkSize) ws ->
  bytesWritten ws = chunkSize * len ws.
Proof.
  induction 1 as [|c ws Hc _ IH].
  - reflexivity.
  - change (bytesWritten (c :: ws)) with (len (snd c) + bytesWritten ws).
    rewrite IH, Hc. unfold len. simpl length. lia.
Qed.

(** A completed download of [N] bytes was written in [ceil(N / 65536)]
    chunks, all of them 64 KiB long but possibly the last. *)
Theorem download_chunk_count (data : Buffer) (destroyed : bool)
  (w : writeOutcome) (es : list event) :
  let s := run (sendChunk destroyed w (start data)) es in
  ended s = true ->
  len (writes s) = (len data + 65535) / 65536 /\
  forall i c, writes s !! i = Some c -> (S i < length (writes s))%nat ->
    len (snd c) = 65536.
Proof.
  intros s Hend.
  assert (HI0 : Inv data (sendChunk destroyed w (start data)))
    by apply Inv_sendChunk, Inv_start.
  assert (HI : Inv data s) by apply Inv_run, HI0.
  assert (Hfull : fullChunks data s).
  { apply fullChunks_run; [exact HI0|].
    apply fullChunks_sendChunk; [apply Inv_start|].
    intros i c Hi. simpl in Hi. rewrite lookup_nil in Hi. discriminate. }
  destruct HI as [_ _ Ho Ht _ He]. destruct (He Hend) as [Hall _].
  pose proof (contiguous_bounded data 0 _ Ht) as Hbound.
  split; [|intros i c Hi Hlt; apply (Hfull i c Hi); left; exact Hlt].
  rewrite <- Hall, Ho. unfold fullChunks in Hfull. clear Ho Ht He.
  remember (writes s) as ws eqn:Hws. clear Hws.
  induction ws as [|c0 ws0 _] using rev_ind.
  { reflexivity. }
  assert (Hinit : Forall (fun c => len (snd c) = chunkSize) ws0).
  { apply Forall_lookup. intros i c Hi. apply (Hfull i c).
    - apply lookup_app_l_Some. exact Hi.
    - left. rewrite length_app. simpl. apply lookup_lt_Some in Hi. lia. }
  apply Forall_app in Hbound as [_ Hlast].
  inversion Hlast as [|? ? Hc0 _]; subst.
  rewrite bytesWritten_app, (bytesWritten_full _ Hinit), len_app.
  change (bytesWritten [c0]) with (len (snd c0) + 0).
  change (len [c0]) with 1. unfold chunkSize in *.
  apply (Z.div_unique _ _ _ (len (snd c0) - 1)); lia.
Qed.

Lemma download_chunk_count_witness :
  let data := replicate (Z.to_nat 140000) 7 in
  let s := run (sendChunk false Flushed (start data))
             (map (Resume false) [Flushed; Flushed; Flushed]) in
  ended s = true /\ len (writes s) = 3.
Proof.
  intros data s.
  assert (E : ended s = true) by (vm_compute; reflexivity).
  split; [exact E|].
  exact (eq_trans (proj1 (download_chunk_count data false Flushed _ E))
           eq_refl).
Defined.

End DownloadMore.

(** ** More on the adaptive download *)

Section AdaptiveMore.
Import Payload Adaptive.

Lemma orDefault_nonzero (parsed : option Q) (dflt : Q) :
  ~ (dflt == 0)%Q -> ~ (orDefault parsed dflt == 0)%Q.
Proof.
  intros Hd. unfold orDefault. destruct parsed as [q|]; [|exact Hd].
  destruct (Qeq_bool q 0) eqn:E; [exact Hd|].
  intros H. apply Qeq_bool_iff in H. congruence.
Qed.

(** Whatever the query holds, the parameters of an adaptive download are
    in range: the initial size is at least 0.1 MB, the max size at most
    10 MB, the duration a non-zero integer of at most 10 seconds, and the
    throttle at least 0.1; so neither the division by the duration nor the
    one by the throttle in [sendData] divides by zero. *)
Theorem adaptive_parameters_in_range (initial max : option Q)
  (dur : option Z) (pat : option string) (thr : option Q) (now : Q) :
  let p := readParams initial max dur pat thr now in
  (0.1 <= initialSize p)%Q /\ (maxSize p <= 10)%Q /\
  (duration p <= 10)%Q /\ ~ (duration p == 0)%Q /\
  (exists z : Z, duration p = inject_Z z) /\
  (0.1 <= throttle p)%Q /\ ~ (throttle p == 0)%Q /\
  pattern p <> "".
Proof.
  intros p. subst p. unfold readParams. simpl.
  assert (Hz : Z.min (orDefaultZ dur 5) 10 <> 0).
  { unfold orDefaultZ. destruct dur as [z|]; [|lia].
    destruct (z =? 0) eqn:E; [lia|]. apply Z.eqb_neq in E. lia. }
  split; [apply Q.le_max_r|]. split; [apply Q.le_min_r|]. split.
  { change 10%Q with (inject_Z 10). rewrite <- Zle_Qle. lia. }
  split.
  { change 0%Q with (inject_Z 0). rewrite inject_Z_injective. exact Hz. }
  split; [eauto|]. split; [apply Q.le_max_r|]. split.
  { pose proof (Q.le_max_r (orDefault thr 1) 0.1). lra. }
  unfold orString. destruct pat as [s|]; [|discriminate].
  case_decide; [discriminate|assumption].
Qed.

(** The target size ramps linearly from the initial size to the max size
    over the first half of the duration, and holds the max size after. *)
Theorem adaptive_target_ramps_then_holds (p : Params) (t : Q) :
  (0 < duration p)%Q ->
  (targetSize p 0 == initialSize p)%Q /\
  ((0 <= t <= duration p / 2)%Q ->
   (targetSize p t
    == initialSize p + (maxSize p - initialSize p) * (2 * t / duration p))%Q)
  /\ ((duration p / 2 <= t)%Q -> (targetSize p t == maxSize p)%Q).
Proof.
  intros Hd. unfold targetSize.
  assert (Hne : ~ (duration p == 0)%Q) by lra.
  assert (Hhalf : (duration p / 2 == duration p * (1 # 2))%Q) by field.
  split; [|split].
  - assert (E : (0 / duration p * 2 == 0)%Q) by (field; exact Hne).
    rewrite E, Q.min_l by lra. lra.
  - intros [H0 Hh].
    assert (Hle : (t / duration p * 2 <= 1)%Q).
    { assert (E : (t / duration p * 2 == t * 2 / duration p)%Q)
        by (field; exact Hne).
      rewrite E. apply Qle_shift_div_r; lra. }
    rewrite Q.min_l by exact Hle. field. exact Hne.
  - intros Hh.
    assert (Hge : (1 <= t / duration p * 2)%Q).
    { assert (E : (t / duration p * 2 == t * 2 / duration p)%Q)
        by (field; exact Hne).
      rewrite E. apply Qle_shift_div_l; lra. }
    rewrite Q.min_r by exact Hge. lra.
Qed.

Lemma adaptive_target_ramps_then_holds_witness :
  let p := readParams (Some 1%Q) (Some 5%Q) (Some 4) None None 0%Q in
  (targetSize p 0 == 1)%Q /\ (targetSize p 1 == 3)%Q /\
  (targetSize p 3 == 5)%Q.
Proof.
  intros p.
  destruct (adaptive_target_ramps_then_holds p 3) as (H0 & _ & Hhold);
    [reflexivity|].
  destruct (adaptive_target_ramps_then_holds p 1) as (_ & Hramp & _);
    [reflexivity|].
  split; [exact H0|]. split.
  - rewrite Hramp; [reflexivity|]. split; discriminate.
  - apply Hhold. discriminate.
Defined.

(** Every chunk an adaptive download writes has at least 0.05 MB, that
    is 52428 bytes; and with a clock that does not run backwards and a
    positive throttle, the timer set after it has a delay between 100 and
    300 ms. *)
Theorem adaptive_chunk_and_delay_bounds (p : Params) (now : Q)
  (destroyed : bool) (w : writeOutcome) (s : Session) (g : Gen)
  (s' : Session) (g' : Gen) (e c : Q) (data : Buffer) (rest : list action) :
  sendData p now destroyed w (s, g) = (s', g') ->
  trace s' = trace s ++ Write e c data :: rest ->
  cacheOk g -> (0 < throttle p)%Q -> (startTime p <= now)%Q ->
  (0.05 <= c)%Q /\ 52428 <= len data /\
  exists d, (100 <= d <= 300)%Q /\
            (waiting s' = Some (Timer d) \/ waiting s' = Some (Drain d)).
Proof.
  intros Hcall Htrace Hok Hthr Hclock.
  destruct (sendData_write_inv _ _ _ _ _ _ _ _ _ _ _ _ Hcall Htrace)
    as (Hin & -> & -> & Hgen & Hw).
  set (t := ((now - startTime p) / 1000)%Q) in *.
  set (size := chunkSize p (Qmin (targetSize p t) (maxSize p))) in *.
  assert (Hc : (0.05 <= size)%Q) by apply Q.le_max_r.
  split; [exact Hc|]. split.
  - apply (generateTestData_spec _ _ _ _ _ Hok) in Hgen as [Hl _].
    unfold len. rewrite Hl. unfold ToIndex.
    assert (52428 <= Qfloor (size * 1024 * 1024)); [|lia].
    change 52428 with (Qfloor (0.05 * 1024 * 1024)).
    apply Qfloor_resp_le. lra.
  - exists (nextDelay p t). split.
    + unfold nextDelay. split; [|apply Q.le_min_l].
      apply Q.min_glb; [discriminate|].
      assert (Ht : (0 <= t)%Q).
      { unfold t. apply Qle_shift_div_l; lra. }
      assert (0 <= t * 10 / throttle p)%Q; [|lra].
      apply Qle_shift_div_l; lra.
    + destruct Hw as [(_ & _ & Hw)|(_ & _ & Hw)]; auto.
Qed.

Lemma adaptive_chunk_and_delay_bounds_witness :
  let p := readParams None None None (Some "compressible") None 0%Q in
  exists c data d,
    trace (fst (handler p 0%Q false Flushed (coldStart (fun _ => 0))))
    = [Write ((0 - 0) / 1000) c data; SetTimeout d] /\
    (0.05 <= c)%Q /\ 52428 <= len data.
Proof.
  intros p.
  destruct (sendData_writes p 0%Q (mkSession (initialSize p) false [] None)
              (coldStart (fun _ => 0)))
    as (data & g' & E); [reflexivity|reflexivity|reflexivity|].
  destruct (adaptive_chunk_and_delay_bounds p 0%Q false Flushed _ _ _ _
              _ _ data _ E eq_refl (cacheOk_coldStart _))
    as (Hc & Hl & _); [reflexivity|discriminate|].
  eexists _, data, _. rewrite (handler_legal p) by reflexivity. rewrite E.
  split; [reflexivity|]. split; assumption.
Defined.

Lemma endedOnce_quiet (s : Session) (c : Q) (f : bool) (k : list action)
  (wk : option wake) :
  endedOnce s -> End ∉ trace s -> End ∉ k -> (f = false -> isFinished s = false) ->
  endedOnce (mkSession c f (trace s ++ k) wk).
Proof.
  intros [Hlive Hend] HnE Hk Hf. split; simpl.
  - intros _ H. apply elem_of_app in H as [H|H]; contradiction.
  - intros H. apply elem_of_app in H as [H|H]; contradiction.
Qed.

Lemma endedOnce_end (s : Session) (c : Q) (pre : list action) :
  End ∉ trace s -> End ∉ pre ->
  endedOnce (mkSession c true (trace s ++ pre ++ [End]) None).
Proof.
  intros HnE Hpre. split; simpl; [discriminate|].
  intros _. split; [reflexivity|].
  exists (trace s ++ pre). split; [apply app_assoc|].
  intros H. apply elem_of_app in H as [H|H]; contradiction.
Qed.

Lemma endedOnce_sendData (p : Params) (now : Q) (destroyed : bool)
  (w : writeOutcome) (s : Session) (g : Gen) :
  endedOnce s -> End ∉ trace s ->
  endedOnce (fst (sendData p now destroyed w (s, g))).
Proof.
  intros Hs HnE.
  assert (Hnil : End ∉ (@nil action)) by apply not_elem_of_nil.
  assert (Hce : End ∉ [ConsoleError]).
  { intros H. apply list_elem_of_singleton in H. discriminate. }
  assert (Hidle : forall c f, (f = false -> isFinished s = false) ->
                              endedOnce (mkSession c f (trace s) None)).
  { intros c f Hf. rewrite <- (app_nil_r (trace s)).
    apply endedOnce_quiet; auto. }
  assert (Hw : forall e c d a, a = OnceDrain \/ (exists d', a = SetTimeout d') ->
                               End ∉ [Write e c d; a]).
  { intros e c d a Ha. apply End_notin_write. exact Ha. }
  unfold sendData. simpl.
  destruct (isFinished s) eqn:Hf; simpl; [apply Hidle; discriminate|].
  destruct destroyed; simpl; [apply Hidle; auto|].
  destruct (Qle_bool (duration p) ((now - startTime p) / 1000)).
  { simpl. apply (endedOnce_end s _ []); auto. }
  destruct (generateTestData _ (pattern p) g) as [[data|e] g'] eqn:Hgen; simpl.
  - destruct w; simpl.
    + apply endedOnce_quiet; eauto.
    + apply endedOnce_quiet; eauto.
    + apply (endedOnce_end s _ [ConsoleError]); auto.
  - apply (endedOnce_end s _ [ConsoleError]); auto.
Qed.

Lemma endedOnce_step (p : Params) (sg : Session * Gen) (e : event) :
  endedOnce (fst sg) -> endedOnce (fst (step p sg e)).
Proof.
  intros Hs. destruct sg as [s g]. unfold step. cbn [fst snd] in *.
  assert (Hpending : is_Some (waiting s) -> End ∉ trace s).
  { intros [k Hk] H. destruct Hs as [_ Hend].
    destruct (Hend H) as [Hnone _]. congruence. }
  destruct e as [now destroyed w| |].
  - destruct (waiting s) as [[d|d]|] eqn:Hw; auto.
    apply endedOnce_sendData; eauto.
  - destruct (waiting s) as [[d|d]|] eqn:Hw; auto. cbn [fst].
    apply endedOnce_quiet; eauto.
    intros H. apply list_elem_of_singleton in H. discriminate.
  - assert (Hc : endedOnce (cleanup s)).
    { destruct Hs as [Hlive Hend]. split; simpl; [discriminate|exact Hend]. }
    destruct (waiting s) as [[d|d]|]; exact Hc.
Qed.

Lemma endedOnce_run (p : Params) (es : list event) (sg : Session * Gen) :
  endedOnce (fst sg) -> endedOnce (fst (run p sg es)).
Proof.
  revert sg. induction es as [|e es IH]; intros sg Hs; [exact Hs|].
  apply (IH (step p sg e)), endedOnce_step, Hs.
Qed.

Lemma endCalls_none (t : list action) : End ∉ t -> endCalls t = 0%nat.
Proof.
  unfold endCalls. induction t as [|a t IH]; intros Hn; [reflexivity|].
  apply not_elem_of_cons in Hn as [Ha Ht]. simpl.
  destruct a; simpl; try (apply IH, Ht). contradiction.
Qed.

Lemma endCalls_some (t : list action) : endCalls t <> 0%nat -> End ∈ t.
Proof.
  unfold endCalls. induction t as [|a t IH]; intros Hn; [contradiction|].
  simpl in Hn. destruct a; simpl in Hn;
    try (apply list_elem_of_further, IH, Hn). apply list_elem_of_here.
Qed.

(** No double end: over every run of an adaptive download, whatever the
    clock, the write outcomes and the order of timer, drain and close
    events, [res.end()] is called at most once; when it has been called
    the session is finished, the call is the last thing it did, and
    nothing is left to run. *)
Theorem adaptive_ends_at_most_once (p : Params) (g : Gen) (now0 : Q)
  (destroyed0 : bool) (w0 : writeOutcome) (es : list event) :
  let s := fst (run p (handler p now0 destroyed0 w0 g) es) in
  (endCalls (trace s) <= 1)%nat /\
  (endCalls (trace s) = 1%nat <->
   isFinished s = true /\ waiting s = None /\
   exists t, trace s = t ++ [End] /\ End ∉ t).
Proof.
  intros s.
  assert (Hstart : endedOnce (mkSession (initialSize p) false [] None)).
  { split; simpl; [intros _; apply not_elem_of_nil|].
    intros H. apply elem_of_nil in H. contradiction. }
  assert (Hs : endedOnce s).
  { apply endedOnce_run. unfold handler.
    destruct (validHeaderValue (pattern p)); [|exact Hstart].
    apply endedOnce_sendData; [exact Hstart|]. apply not_elem_of_nil. }
  destruct Hs as [Hlive Hend].
  assert (Hone : forall t, End ∉ t -> endCalls (t ++ [End]) = 1%nat).
  { intros t Ht. unfold endCalls. rewrite List.filter_app, length_app.
    fold (endCalls t). rewrite (endCalls_none t Ht). reflexivity. }
  destruct (decide (endCalls (trace s) = 0%nat)) as [Hzero|Hpos].
  - rewrite Hzero. split; [lia|]. split; [discriminate|].
    intros (_ & _ & t & Et & Ht). rewrite Et, (Hone t Ht) in Hzero.
    discriminate.
  - pose proof (endCalls_some _ Hpos) as Hin.
    destruct (Hend Hin) as (Hw & t & Et & Ht).
    rewrite Et, (Hone t Ht). split; [lia|]. split; [|reflexivity].
    intros _. split; [|split; [exact Hw|eauto]].
    destruct (isFinished s) eqn:Hf; [reflexivity|].
    exfalso. apply (Hlive eq_refl). rewrite Et.
    apply elem_of_app. right. apply list_elem_of_here.
Qed.

Lemma adaptive_finished_step (p : Params) (s : Session) (g : Gen) (e : event) :
  isFinished s = true ->
  isFinished (fst (step p (s, g) e)) = true /\
  written (fst (step p (s, g) e)) = written s /\
  endCalls (trace (fst (step p (s, g) e))) = endCalls (trace s).
Proof.
  intros Hf. unfold step. cbn [fst snd].
  destruct e as [now destroyed w| |].
  - destruct (waiting s) as [[d|d]|]; auto.
    unfold sendData. simpl. rewrite Hf. simpl. auto.
  - destruct (waiting s) as [[d|d]|]; auto. cbn [fst isFinished trace].
    split; [exact Hf|]. unfold written, endCalls. cbn [trace].
    rewrite filter_app, List.filter_app. simpl.
    rewrite filter_cons, filter_nil. simpl.
    rewrite !app_nil_r. auto.
  - destruct (waiting s) as [[d|d]|]; auto.
Qed.

Lemma adaptive_finished_run (p : Params) (es : list event) (s : Session)
  (g : Gen) :
  isFinished s = true ->
  isFinished (fst (run p (s, g) es)) = true /\
  written (fst (run p (s, g) es)) = written s /\
  endCalls (trace (fst (run p (s, g) es))) = endCalls (trace s).
Proof.
  revert s g. induction es as [|e es IH]; intros s g Hf; [auto|].
  change (run p (s, g) (e :: es)) with (run p (step p (s, g) e) es).
  destruct (adaptive_finished_step p s g e Hf) as (Hf' & Hw & He).
  destruct (step p (s, g) e) as [s1 g1]. simpl in *.
  destruct (IH s1 g1 Hf') as (Hf'' & Hw' & He'). repeat split; congruence.
Qed.

(** Cancellation: once a close, aborted or error listener has run, an
    adaptive download writes no further chunk and makes no further call
    of [res.end()], whatever timers and drain events are still delivered. *)
Theorem adaptive_close_stops_the_stream (p : Params) (g : Gen) (now0 : Q)
  (destroyed0 : bool) (w0 : writeOutcome) (es es' : list event) :
  let sg := run p (handler p now0 destroyed0 w0 g) es in
  let sg' := run p sg (Close :: es') in
  isFinished (fst sg') = true /\
  written (fst sg') = written (fst sg) /\
  endCalls (trace (fst sg')) = endCalls (trace (fst sg)).
Proof.
  intros sg sg'. subst sg'.
  change (run p sg (Close :: es')) with (run p (step p sg Close) es').
  destruct sg as [s g1].
  assert (E : step p (s, g1) Close = (cleanup s, g1)).
  { unfold step. cbn [fst snd]. destruct (waiting s) as [[d|d]|]; reflexivity. }
  rewrite E.
  destruct (adaptive_finished_run p es' (cleanup s) g1 eq_refl)
    as (Hf & Hw & He).
  auto.
Qed.



End AdaptiveMore.

(** ** More on the warmup *)

Section WarmupMore.
Import Payload Warmup.

Lemma phase_len (g g' : Gen) (ph : Phase) (k : nat) (data : Buffer) :
  cacheOk g -> phases !! k = Some ph ->
  generateTestData (size ph) "random" g = (Ok data, g') ->
  phaseBytes !! k = Some (len data).
Proof.
  intros Hok Hk Hgen.
  apply (generateTestData_spec _ _ _ _ _ Hok) in Hgen as [Hl _].
  unfold len. rewrite Hl.
  do 4 (destruct k as [|k]; [injection Hk as <-; vm_compute; reflexivity|]).
  discriminate Hk.
Qed.

Lemma payloadSizes_app (t k : list action) :
  payloadSizes (t ++ k) = payloadSizes t ++ payloadSizes k.
Proof. unfold payloadSizes. apply omap_app. Qed.

Lemma sent_sendPhase (destroyed : bool) (w : writeOutcome) (s : Session)
  (g : Gen) :
  cacheOk g ->
  payloadSizes (trace s) = take (currentPhase s) phaseBytes ->
  let s' := fst (sendPhase destroyed w (s, g)) in
  payloadSizes (trace s') = take (currentPhase s') phaseBytes.
Proof.
  intros Hok Hsent. unfold sendPhase. cbn -[phases Nat.ltb Nat.leb].
  destruct (isFinished s || destroyed) eqn:Hfd; [exact Hsent|].
  apply orb_false_iff in Hfd as [Hf ->].
  destruct (length phases <=? currentPhase s)%nat eqn:Hge.
  { cbn. rewrite payloadSizes_app, Hsent. apply app_nil_r. }
  assert (Hcaught : payloadSizes
                      (trace (caught false
                                (mkSession (currentPhase s) (isFinished s)
                                   (trace s) None)))
                    = take (currentPhase s) phaseBytes).
  { unfold caught, cleanup, emit. cbn. rewrite Hf. cbn.
    rewrite payloadSizes_app, Hsent. apply app_nil_r. }
  destruct (phases !! currentPhase s) as [ph|] eqn:Hph; [|exact Hcaught].
  destruct (generateTestData (size ph) "random" g) as [[data|e] g'] eqn:Hgen;
    [|exact Hcaught].
  pose proof (phase_len g g' ph _ data Hok Hph Hgen) as Hk.
  rewrite Hf in Hcaught |- *. cbn -[phases Nat.ltb Nat.leb].
  assert (Hgrow : forall a, payloadSizes [Write data; a] = [len data] ->
            payloadSizes (trace s ++ [Write data; a])
            = take (S (currentPhase s)) phaseBytes).
  { intros a Ha. rewrite payloadSizes_app, Hsent, Ha.
    rewrite (take_S_r _ _ _ Hk). reflexivity. }
  destruct w; [| |exact Hcaught];
    destruct (S (currentPhase s) <? length phases)%nat;
    cbn -[phases Nat.ltb Nat.leb]; apply Hgrow; reflexivity.
Qed.

Lemma sent_step (sg : Session * Gen) (e : event) :
  cacheOk (snd sg) ->
  payloadSizes (trace (fst sg)) = take (currentPhase (fst sg)) phaseBytes ->
  payloadSizes (trace (fst (step sg e)))
  = take (currentPhase (fst (step sg e))) phaseBytes.
Proof.
  destruct sg as [s g]. cbn [fst snd]. intros Hok Hsent.
  unfold step. cbn [fst snd].
  destruct e as [destroyed w| |].
  - destruct (waiting s) as [[d [|]|d]|]; cbn [fst snd]; auto.
    + apply sent_sendPhase; assumption.
    + unfold finish. cbn.
      destruct (negb (isFinished s) && negb destroyed); cbn; auto.
      rewrite payloadSizes_app, Hsent. apply app_nil_r.
  - destruct (waiting s) as [[d k|d]|]; cbn [fst snd]; auto. cbn.
    rewrite payloadSizes_app, Hsent. apply app_nil_r.
  - destruct (waiting s) as [[d k|d]|]; cbn [fst snd]; auto.
Qed.

Lemma step_cacheOk (sg : Session * Gen) (e : event) :
  cacheOk (snd sg) -> cacheOk (snd (step sg e)).
Proof.
  destruct sg as [s g]. cbn [fst snd]. intros Hok.
  unfold step. cbn [fst snd].
  destruct e as [destroyed w| |];
    destruct (waiting s) as [[d [|]|d]|]; cbn [fst snd]; auto.
  apply sendPhase_cacheOk, Hok.
Qed.

(** Whatever happens to a warmup (backpressure, failed writes, a
    disconnect at any moment), the payloads it has written are the first
    [currentPhase] of the four phases, in order and complete: never more
    than four, never one out of turn, never one twice. *)
Theorem warmup_payloads_are_a_prefix (g : Gen) (destroyed : bool)
  (w : writeOutcome) (es : list event) :
  cacheOk g ->
  let s := fst (run (handler destroyed w g) es) in
  payloadSizes (trace s) = take (currentPhase s) phaseBytes /\
  (length (payloadSizes (trace s)) <= 4)%nat.
Proof.
  intros Hok s.
  assert (H : payloadSizes (trace s) = take (currentPhase s) phaseBytes).
  { subst s.
    assert (H0 : payloadSizes (trace (fst (handler destroyed w g)))
                 = take (currentPhase (fst (handler destroyed w g))) phaseBytes)
      by (apply sent_sendPhase; [exact Hok|reflexivity]).
    assert (Hok0 : cacheOk (snd (handler destroyed w g)))
      by apply sendPhase_cacheOk, Hok.
    revert H0 Hok0. generalize (handler destroyed w g).
    induction es as [|e es IH]; intros sg H0 Hok0; [exact H0|].
    apply (IH (step sg e)); [apply sent_step; assumption|].
    apply step_cacheOk, Hok0. }
  split; [exact H|]. rewrite H, length_take. simpl. lia.
Qed.

Lemma warmup_payloads_are_a_prefix_witness :
  let s := fst (run (handler false Buffered (coldStart (fun _ => 0)))
                  [DrainFires; Close; TimerFires false Flushed]) in
  payloadSizes (trace s) = take (currentPhase s) phaseBytes.
Proof.
  intros s.
  exact (proj1 (warmup_payloads_are_a_prefix (coldStart (fun _ => 0)) false
                  Buffered [DrainFires; Close; TimerFires false Flushed]
                  (cacheOk_coldStart _))).
Defined.

Lemma warmupEndedOnce_quiet (s : Session) (k : nat) (f : bool)
  (a : list action) (wk : option wake) :
  End ∉ trace s -> End ∉ a ->
  warmupEndedOnce (mkSession k f (trace s ++ a) wk).
Proof.
  intros HnE Ha. split; simpl.
  - intros _ H. apply elem_of_app in H as [H|H]; contradiction.
  - intros H. apply elem_of_app in H as [H|H]; contradiction.
Qed.

Lemma warmupEndedOnce_end (s : Session) (k : nat) (pre : list action) :
  End ∉ trace s -> End ∉ pre ->
  warmupEndedOnce (mkSession k true (trace s ++ pre ++ [End]) None).
Proof.
  intros HnE Hpre. split; simpl; [discriminate|].
  intros _. split; [reflexivity|].
  exists (trace s ++ pre). split; [apply app_assoc|].
  intros H. apply elem_of_app in H as [H|H]; contradiction.
Qed.

Lemma warmup_write_no_End (data : Buffer) (a : action) :
  a = OnceDrain \/ (exists d, a = SetTimeout d) -> End ∉ [Write data; a].
Proof.
  intros Ha H.
  repeat (apply elem_of_cons in H as [H|H];
          [destruct Ha as [->|[d ->]]; discriminate H|]).
  apply elem_of_nil in H. exact H.
Qed.

Lemma warmupEndedOnce_sendPhase (destroyed : bool) (w : writeOutcome)
  (s : Session) (g : Gen) :
  End ∉ trace s ->
  warmupEndedOnce (fst (sendPhase destroyed w (s, g))).
Proof.
  intros HnE.
  assert (Hnil : End ∉ (@nil action)) by apply not_elem_of_nil.
  assert (Hce : End ∉ [ConsoleError]).
  { intros H. apply list_elem_of_singleton in H. discriminate. }
  assert (Hidle : forall k f, warmupEndedOnce (mkSession k f (trace s) None)).
  { intros k f. rewrite <- (app_nil_r (trace s)).
    apply warmupEndedOnce_quiet; auto. }
  unfold sendPhase. cbn -[phases Nat.ltb Nat.leb].
  destruct (isFinished s || destroyed) eqn:Hfd; [apply Hidle|].
  apply orb_false_iff in Hfd as [Hf ->].
  destruct (length phases <=? currentPhase s)%nat.
  { cbn. apply (warmupEndedOnce_end s _ []); auto. }
  assert (Hcaught : warmupEndedOnce
                      (caught false
                         (mkSession (currentPhase s) false (trace s) None))).
  { unfold caught, cleanup, emit. cbn.
    apply (warmupEndedOnce_end s _ [ConsoleError]); auto. }
  rewrite Hf.
  destruct (phases !! currentPhase s) as [ph|]; [|exact Hcaught].
  destruct (generateTestData (size ph) "random" g) as [[data|e] g'];
    [|exact Hcaught].
  cbn -[phases Nat.ltb Nat.leb].
  destruct w; [| |exact Hcaught];
    destruct (S (currentPhase s) <? length phases)%nat;
    cbn -[phases Nat.ltb Nat.leb];
    apply warmupEndedOnce_quiet; auto; apply warmup_write_no_End; eauto.
Qed.

Lemma warmupEndedOnce_step (sg : Session * Gen) (e : event) :
  warmupEndedOnce (fst sg) -> warmupEndedOnce (fst (step sg e)).
Proof.
  intros Hs. destruct sg as [s g]. unfold step. cbn [fst snd] in *.
  assert (Hpending : is_Some (waiting s) -> End ∉ trace s).
  { intros [k Hk] H. destruct Hs as [_ Hend].
    destruct (Hend H) as [Hnone _]. congruence. }
  destruct e as [destroyed w| |].
  - destruct (waiting s) as [[d [|]|d]|] eqn:Hw; cbn [fst snd]; auto.
    + apply warmupEndedOnce_sendPhase; eauto.
    + unfold finish. cbn.
      destruct (negb (isFinished s) && negb destroyed); cbn.
      * apply (warmupEndedOnce_end s _ []); eauto. apply not_elem_of_nil.
      * rewrite <- (app_nil_r (trace s)).
        apply warmupEndedOnce_quiet; eauto. apply not_elem_of_nil.
  - destruct (waiting s) as [[d k|d]|] eqn:Hw; cbn [fst snd]; auto.
    apply warmupEndedOnce_quiet; eauto.
    intros H. apply list_elem_of_singleton in H. discriminate.
  - assert (Hc : warmupEndedOnce (cleanup s)).
    { destruct Hs as [Hlive Hend]. split; simpl; [discriminate|exact Hend]. }
    destruct (waiting s) as [[d k|d]|]; exact Hc.
Qed.

Lemma warmupEndedOnce_run (es : list event) (sg : Session * Gen) :
  warmupEndedOnce (fst sg) -> warmupEndedOnce (fst (run sg es)).
Proof.
  revert sg. induction es as [|e es IH]; intros sg Hs; [exact Hs|].
  apply (IH (step sg e)), warmupEndedOnce_step, Hs.
Qed.

Lemma warmupEndCalls_none (t : list action) :
  End ∉ t -> warmupEndCalls t = 0%nat.
Proof.
  unfold warmupEndCalls. induction t as [|a t IH]; intros Hn; [reflexivity|].
  apply not_elem_of_cons in Hn as [Ha Ht]. simpl.
  destruct a; simpl; try (apply IH, Ht). contradiction.
Qed.

Lemma warmupEndCalls_some (t : list action) :
  warmupEndCalls t <> 0%nat -> End ∈ t.
Proof.
  unfold warmupEndCalls. induction t as [|a t IH]; intros Hn; [contradiction|].
  simpl in Hn. destruct a; simpl in Hn;
    try (apply list_elem_of_further, IH, Hn). apply list_elem_of_here.
Qed.

(** No double end: over every run of a warmup, [res.end()] is called at
    most once, although three places in the handler call it; when it has
    been called the call is the last thing the session did, and nothing
    is left to run. *)
Theorem warmup_ends_at_most_once (g : Gen) (destroyed : bool)
  (w : writeOutcome) (es : list event) :
  let s := fst (run (handler destroyed w g) es) in
  (warmupEndCalls (trace s) <= 1)%nat /\
  (warmupEndCalls (trace s) = 1%nat <->
   waiting s = None /\ exists t, trace s = t ++ [End] /\ End ∉ t).
Proof.
  intros s.
  assert (Hs : warmupEndedOnce s).
  { apply warmupEndedOnce_run, warmupEndedOnce_sendPhase.
    apply not_elem_of_nil. }
  destruct Hs as [Hlive Hend].
  assert (Hone : forall t, End ∉ t -> warmupEndCalls (t ++ [End]) = 1%nat).
  { intros t Ht. unfold warmupEndCalls. rewrite List.filter_app, length_app.
    fold (warmupEndCalls t). rewrite (warmupEndCalls_none t Ht). reflexivity. }
  destruct (decide (warmupEndCalls (trace s) = 0%nat)) as [Hzero|Hpos].
  - rewrite Hzero. split; [lia|]. split; [discriminate|].
    intros (_ & t & Et & Ht). rewrite Et, (Hone t Ht) in Hzero.
    discriminate.
  - pose proof (warmupEndCalls_some _ Hpos) as Hin.
    destruct (Hend Hin) as (Hw & t & Et & Ht).
    rewrite Et, (Hone t Ht). split; [lia|]. split; [|reflexivity].
    intros _. split; [exact Hw|eauto].
Qed.

Lemma warmup_finished_step (s : Session) (g : Gen) (e : event) :
  isFinished s = true ->
  isFinished (fst (step (s, g) e)) = true /\
  payloadSizes (trace (fst (step (s, g) e))) = payloadSizes (trace s) /\
  warmupEndCalls (trace (fst (step (s, g) e))) = warmupEndCalls (trace s).
Proof.
  intros Hf. unfold step. cbn [fst snd].
  destruct e as [destroyed w| |].
  - destruct (waiting s) as [[d [|]|d]|]; cbn [fst snd]; auto.
    + rewrite sendPhase_finished by exact Hf. auto.
    + unfold finish. cbn. rewrite Hf. cbn. auto.
  - destruct (waiting s) as [[d k|d]|]; cbn [fst snd]; auto.
    cbn [isFinished trace].
    split; [exact Hf|]. unfold warmupEndCalls.
    rewrite payloadSizes_app, List.filter_app. simpl.
    rewrite !app_nil_r. auto.
  - destruct (waiting s) as [[d k|d]|]; auto.
Qed.

Lemma warmup_finished_run (es : list event) (s : Session) (g : Gen) :
  isFinished s = true ->
  isFinished (fst (run (s, g) es)) = true /\
  payloadSizes (trace (fst (run (s, g) es))) = payloadSizes (trace s) /\
  warmupEndCalls (trace (fst (run (s, g) es))) = warmupEndCalls (trace s).
Proof.
  revert s g. induction es as [|e es IH]; intros s g Hf; [auto|].
  change (run (s, g) (e :: es)) with (run (step (s, g) e) es).
  destruct (warmup_finished_step s g e Hf) as (Hf' & Hw & He).
  destruct (step (s, g) e) as [s1 g1]. simpl in *.
  destruct (IH s1 g1 Hf') as (Hf'' & Hw' & He'). repeat split; congruence.
Qed.

(** Cancellation: once a close, aborted or error listener has run, a
    warmup writes no further payload and makes no further call of
    [res.end()], whatever timers and drain events are still delivered. *)
Theorem warmup_close_stops_the_stream (g : Gen) (destroyed : bool)
  (w : writeOutcome) (es es' : list event) :
  let sg := run (handler destroyed w g) es in
  let sg' := run sg (Close :: es') in
  isFinished (fst sg') = true /\
  payloadSizes (trace (fst sg')) = payloadSizes (trace (fst sg)) /\
  warmupEndCalls (trace (fst sg')) = warmupEndCalls (trace (fst sg)).
Proof.
  intros sg sg'. subst sg'.
  change (run sg (Close :: es')) with (run (step sg Close) es').
  destruct sg as [s g1].
  assert (E : step (s, g1) Close = (cleanup s, g1)).
  { unfold step. cbn [fst snd]. destruct (waiting s) as [[d k|d]|]; reflexivity. }
  rewrite E.
  destruct (warmup_finished_run es' (cleanup s) g1 eq_refl) as (Hf & Hw & He).
  auto.
Qed.

Lemma sendPhase_sends_any (s : Session) (g : Gen) (k : nat) (ph : Phase)
  (w : writeOutcome) :
  isFinished s = false -> currentPhase s = k -> phases !! k = Some ph ->
  w <> WriteFails ->
  exists data g',
    sendPhase false w (s, g)
    = (if (S k <? length phases)%nat then
         match w with
         | Buffered =>
             mkSession (S k) false (trace s ++ [Write data; OnceDrain])
               (Some (Drain (delay ph)))
         | _ =>
             mkSession (S k) false
               (trace s ++ [Write data; SetTimeout (delay ph)])
               (Some (Timer (delay ph) SendPhase))
         end
       else
         mkSession (S k) false
           (trace s ++ [Write data; SetTimeout (delay ph)])
           (Some (Timer (delay ph) Finish)), g').
Proof.
  intros Hf Hk Hph Hw.
  assert (Hlt : (k < length phases)%nat) by (eapply lookup_lt_Some; eauto).
  destruct (generateTestData_returns (size ph) "random" g) as (data & g' & E).
  { do 4 (destruct k as [|k]; [injection Hph as <-; reflexivity|]).
    discriminate Hph. }
  exists data, g'. unfold sendPhase. cbn -[phases Nat.ltb Nat.leb].
  rewrite Hf, Hk. cbn -[phases Nat.ltb Nat.leb].
  apply Nat.leb_gt in Hlt. rewrite Hlt, Hph, E.
  destruct w; [| |contradiction];
    destruct (S k <? length phases)%nat; reflexivity.
Qed.

Lemma step_timer_sends_any (s : Session) (g : Gen) (k : nat) (ph : Phase)
  (d : Q) (w : writeOutcome) :
  isFinished s = false -> currentPhase s = k -> phases !! k = Some ph ->
  waiting s = Some (Timer d SendPhase) -> w <> WriteFails ->
  exists data g',
    step (s, g) (TimerFires false w)
    = (if (S k <? length phases)%nat then
         match w with
         | Buffered =>
             mkSession (S k) false (trace s ++ [Write data; OnceDrain])
               (Some (Drain (delay ph)))
         | _ =>
             mkSession (S k) false
               (trace s ++ [Write data; SetTimeout (delay ph)])
               (Some (Timer (delay ph) SendPhase))
         end
       else
         mkSession (S k) false
           (trace s ++ [Write data; SetTimeout (delay ph)])
           (Some (Timer (delay ph) Finish)), g').
Proof.
  intros Hf Hk Hph Hw Hok. unfold step. cbn [fst snd]. rewrite Hw.
  apply sendPhase_sends_any; assumption.
Qed.

Lemma step_drain_sets_timer (s : Session) (g : Gen) (d : Q) :
  waiting s = Some (Drain d) ->
  step (s, g) DrainFires
  = (mkSession (currentPhase s) (isFinished s) (trace s ++ [SetTimeout d])
       (Some (Timer d SendPhase)), g).
Proof. intros Hw. unfold step. cbn [fst snd]. rewrite Hw. reflexivity. Qed.

(** A phase and the wait after it: the write, then ["drain"] if the write
    was queued, leave the session waiting for the phase's timer. *)
Lemma phase_then_wait (s : Session) (g : Gen) (k : nat) (ph : Phase)
  (w : writeOutcome) :
  isFinished s = false -> currentPhase s = k -> phases !! k = Some ph ->
  (S k < length phases)%nat -> w <> WriteFails ->
  exists t g',
    run (sendPhase false w (s, g)) (awaited w)
    = (mkSession (S k) false (trace s ++ t)
         (Some (Timer (delay ph) SendPhase)), g') /\
    (End ∉ t) /\ (ConsoleError ∉ t).
Proof.
  intros Hf Hk Hph Hlt Hw.
  destruct (sendPhase_sends_any s g k ph w Hf Hk Hph Hw) as (data & g' & E).
  apply Nat.ltb_lt in Hlt. rewrite Hlt in E. rewrite E.
  assert (Hno : forall (a : action) (l : list action),
             a <> End -> End ∉ l -> End ∉ a :: l).
  { intros a l Ha Hl H. apply elem_of_cons in H as [H|H]; auto. }
  assert (Hno' : forall (a : action) (l : list action),
             a <> ConsoleError -> ConsoleError ∉ l -> ConsoleError ∉ a :: l).
  { intros a l Ha Hl H. apply elem_of_cons in H as [H|H]; auto. }
  destruct w; [| |contradiction].
  - exists [Write data; SetTimeout (delay ph)], g'. split; [reflexivity|].
    split; [repeat apply Hno|repeat apply Hno'];
      try discriminate; apply not_elem_of_nil.
  - exists [Write data; OnceDrain; SetTimeout (delay ph)], g'. split.
    + cbn [awaited run foldl]. rewrite (step_drain_sets_timer _ _ (delay ph))
        by reflexivity.
      cbn [currentPhase isFinished trace]. rewrite <- app_assoc. reflexivity.
    + split; [repeat apply Hno|repeat apply Hno'];
        try discriminate; apply not_elem_of_nil.
Qed.

Lemma warmup_run_app (sg : Session * Gen) (es es' : list event) :
  run sg (es ++ es') = run (run sg es) es'.
Proof. unfold run. apply foldl_app. Qed.

(** Progress: with a response that stays writable and no disconnect, the
    warmup runs to its end whatever mix of flushed and queued writes it
    meets: a timer after each flushed write, ["drain"] and then the timer
    after each queued one, and the closing timer after the last phase. *)
Theorem warmup_completes_under_backpressure (g : Gen)
  (w0 w1 w2 w3 : writeOutcome) :
  Forall (fun w => w <> WriteFails) [w0; w1; w2; w3] ->
  completed (fst (run (handler false w0 g) (warmupEvents w0 w1 w2 w3))).
Proof.
  intros Hok.
  inversion Hok as [|? ? H0 Hok1]; subst.
  inversion Hok1 as [|? ? H1 Hok2]; subst.
  inversion Hok2 as [|? ? H2 Hok3]; subst.
  inversion Hok3 as [|? ? H3 _]; subst.
  unfold warmupEvents, handler.
  (* phase 0 *)
  rewrite warmup_run_app.
  destruct (phase_then_wait (mkSession 0 false [] None) g 0 _ w0
              eq_refl eq_refl eq_refl) as (t0 & g0 & E0 & HE0 & HC0);
    [simpl; lia|exact H0|].
  rewrite E0. clear E0.
  (* phase 1 *)
  change ([TimerFires false w1] ++ ?l) with (TimerFires false w1 :: l).
  match goal with |- context [run (?s, g0) (TimerFires false w1 :: ?l)] =>
    change (run (s, g0) (TimerFires false w1 :: l))
      with (run (sendPhase false w1 (s, g0)) l);
    rewrite warmup_run_app;
    destruct (phase_then_wait s g0 1 _ w1 eq_refl eq_refl eq_refl)
      as (t1 & g1 & E1 & HE1 & HC1); [simpl; lia|exact H1|]
  end.
  rewrite E1. clear E1.
  (* phase 2 *)
  change ([TimerFires false w2] ++ ?l) with (TimerFires false w2 :: l).
  match goal with |- context [run (?s, g1) (TimerFires false w2 :: ?l)] =>
    change (run (s, g1) (TimerFires false w2 :: l))
      with (run (sendPhase false w2 (s, g1)) l);
    rewrite warmup_run_app;
    destruct (phase_then_wait s g1 2 _ w2 eq_refl eq_refl eq_refl)
      as (t2 & g2 & E2 & HE2 & HC2); [simpl; lia|exact H2|]
  end.
  rewrite E2. clear E2.
  (* phase 3 and the closing timer *)
  change ([TimerFires false w3] ++ ?l) with (TimerFires false w3 :: l).
  match goal with |- context [run (?s, g2) [TimerFires false w3; ?e]] =>
    change (run (s, g2) [TimerFires false w3; e])
      with (step (step (s, g2) (TimerFires false w3)) e);
    destruct (step_timer_sends_any s g2 3 _ _ w3 eq_refl eq_refl eq_refl
                eq_refl H3) as (d3 & g3 & E3)
  end.
  rewrite E3. clear E3.
  change (3 <? length phases)%nat with false. cbv iota.
  unfold step, finish, cleanup, emit. cbn.
  split; [reflexivity|]. split.
  - apply elem_of_app. right. apply list_elem_of_here.
  - intros H. cbn [trace] in H.
    rewrite ?elem_of_app, ?elem_of_cons, ?elem_of_nil in H.
    intuition congruence.
Qed.

Lemma warmup_completes_under_backpressure_witness :
  completed (fst (run (handler false Buffered (coldStart (fun _ => 0)))
                    [DrainFires; TimerFires false Flushed;
                     TimerFires false Buffered; DrainFires;
                     TimerFires false Buffered; TimerFires false Flushed])).
Proof.
  apply (warmup_completes_under_backpressure (coldStart (fun _ => 0))
           Buffered Flushed Buffered Buffered).
  repeat constructor; discriminate.
Defined.

End WarmupMore.

(** * Further properties of the latency probe *)

Section LatencyMore.
Import Latency.

(** [toFixed] depends on the number only, not on the fraction that
    denotes it. *)
Lemma toFixed_Qeq (x y : Q) (digits : nat) :
  (x == y)%Q -> toFixed x digits = toFixed y digits.
Proof.
  intros E. unfold toFixed.
  assert (E1 : Qltb x 0 = Qltb y 0).
  { unfold Qltb. rewrite E. reflexivity. }
  assert (E2 : Qfloor (Qabs x * inject_Z (10 ^ Z.of_nat digits) + 0.5)
               = Qfloor (Qabs y * inject_Z (10 ^ Z.of_nat digits) + 0.5)).
  { apply Qfloor_comp. rewrite E. reflexivity. }
  cbv zeta. rewrite E1, E2. reflexivity.
Qed.

Lemma probe_snoc (c : Config) (first : Q) (later : list Q) (t : Q) :
  probe c first (later ++ [t]) = tick c (probe c first later) t.
Proof. unfold probe. rewrite foldl_app. reflexivity. Qed.

(** The probe while readings are still missing. *)
Lemma probe_waiting (c : Config) (first : Q) (later : list Q) :
  len later < rounds c - 1 ->
  let s := probe c first later in
  measurements s = measuredFrom (startTime c) 0 (first :: later) /\
  completed s = len later + 1 /\
  timers s = replicate (S (length later)) (cfgInterval c) /\
  waiting s = Some (len later + 1) /\
  response s = None.
Proof.
  induction later as [|t later IH] using rev_ind; intros Hlen.
  - unfold rounds in Hlen. change (len (@nil Q)) with 0 in *.
    unfold probe, handler. simpl foldl.
    rewrite performMeasurement_more by (simpl; lia).
    cbn. auto.
  - assert (Hl : len (later ++ [t]) = len later + 1).
    { rewrite len_app. reflexivity. }
    rewrite Hl in *.
    destruct IH as (Hm & Hc & Ht & Hw & Hr); [lia|].
    rewrite probe_snoc. unfold tick. rewrite Hw.
    pose proof (len_nonneg later) as Hpos.
    rewrite performMeasurement_more by (rewrite Hc; unfold rounds in Hlen; lia).
    cbn [measurements completed timers waiting response].
    rewrite Hm, Hc, Ht, Hr. repeat split.
    + change (first :: later ++ [t]) with ((first :: later) ++ [t]).
      rewrite measuredFrom_snoc. do 3 f_equal.
      unfold len. simpl length. lia.
    + rewrite length_app. simpl length.
      replace (length later + 1)%nat with (S (length later)) by lia.
      change (replicate (S (S (length later))) (cfgInterval c))
        with (cfgInterval c :: replicate (S (length later)) (cfgInterval c)).
      rewrite <- (replicate_S_end (S (length later))).
      reflexivity.
Qed.

(** The reply waits for the last measurement: while fewer timers have
    expired than the probe needs, nothing has been sent, every
    measurement so far is recorded, and one more timer is pending. *)
Theorem latency_waits_for_all_rounds (c : Config) (first : Q)
  (later : list Q) :
  len later < rounds c - 1 ->
  let s := probe c first later in
  response s = None /\
  waiting s = Some (len later + 1) /\
  measurements s = measuredFrom (startTime c) 0 (first :: later) /\
  timers s = replicate (S (length later)) (cfgInterval c).
Proof.
  intros Hlen s.
  destruct (probe_waiting c first later Hlen) as (Hm & _ & Ht & Hw & Hr).
  auto.
Qed.

Lemma latency_waits_for_all_rounds_witness :
  let s := probe (readQuery (Some 3) None 0%Q) 1%Q [101%Q] in
  response s = None /\ waiting s = Some 2 /\ timers s = [100; 100].
Proof.
  intros s.
  destruct (latency_waits_for_all_rounds (readQuery (Some 3) None 0%Q) 1%Q
              [101%Q]) as (Hr & Hw & _ & Ht).
  - vm_compute. reflexivity.
  - auto.
Defined.

(** A negative count is not raised to 1 before it is compared: the
    first measurement already satisfies it, so the reply is sent at once
    with that single measurement, no timer is set, and the jitter is 0. *)
Theorem latency_negative_count_answers_at_once (n : Z) (v : option Z)
  (now first : Q) (later : list Q) :
  n < 0 ->
  let m := mkMeasurement 0 now first (first - now) in
  let d := toFixed (first - now) 3 in
  probe (readQuery (Some n) v now) first later
  = mkProbe [m] 1 [] None (Some ([m], mkStatistics 1 d d d "0.000")).
Proof.
  intros Hn m d. unfold probe, handler.
  assert (Hc : cfgCount (readQuery (Some n) v now) = n).
  { unfold readQuery, orDefaultZ. cbn [cfgCount].
    destruct (Z.eqb_spec n 0); lia. }
  rewrite performMeasurement_last by (rewrite Hc; simpl; lia).
  cbv zeta. rewrite probe_idle by reflexivity.
  cbn [measurements completed timers app startTime readQuery].
  fold m. change (0 + 1) with 1. do 2 f_equal.
  cbn [map latency m]. unfold statistics, total. cbn [foldl].
  subst d.
  rewrite (toFixed_Qeq ((0 + (first - now)) / inject_Z (len [(first - now)%Q]))
             (first - now) 3)
    by (change (len [(first - now)%Q]) with 1; field).
  rewrite (toFixed_Qeq (first - now - (first - now)) 0 3) by ring.
  rewrite toFixed_zero. reflexivity.
Qed.

Lemma latency_negative_count_answers_at_once_witness :
  response (probe (readQuery (Some (-3)) None 0%Q) 2%Q [110%Q; 220%Q])
  = Some ([mkMeasurement 0 0%Q 2%Q (2 - 0)%Q],
          mkStatistics 1 "2.000" "2.000" "2.000" "0.000").
Proof.
  rewrite (latency_negative_count_answers_at_once (-3) None 0%Q 2%Q
             [110%Q; 220%Q]) by lia.
  reflexivity.
Defined.


Lemma Qmin_left (x y : Q) : (x <= y)%Q -> Qmin x y = x.
Proof.
  intros H. unfold Qmin, GenericMinMax.gmin.
  destruct (x ?= y)%Q eqn:E; try reflexivity.
  apply Qgt_alt in E. exfalso. apply (Qlt_not_le _ _ E). exact H.
Qed.

Lemma foldl_Qmin_least (x : Q) (xs : list Q) :
  Forall (Qle x) xs -> foldl Qmin x xs = x.
Proof.
  induction 1 as [|y ys Hy _ IH]; [reflexivity|].
  simpl. rewrite Qmin_left by exact Hy. exact IH.
Qed.

Lemma map_latency_measuredFrom (start : Q) (index : Z) (seen : list Q) :
  map latency (measuredFrom start index seen)
  = map (fun t => (t - start)%Q) seen.
Proof.
  revert index. induction seen as [|t seen IH]; intros index;
    [reflexivity|].
  simpl. rewrite IH. reflexivity.
Qed.

Lemma sorted_take (n : nat) (l : list Q) :
  StronglySorted Qle l -> StronglySorted Qle (take n l).
Proof.
  intros H. revert n.
  induction H as [|x xs Hs IH Hall]; intros [|n]; simpl; constructor.
  - apply IH.
  - apply Forall_take. exact Hall.
Qed.

Lemma last_cons (x z : Q) (zs : list Q) :
  List.last (z :: zs) x = List.last zs z.
Proof.
  revert x z. induction zs as [|w ws IH]; intros x z; [reflexivity|].
  change (List.last (z :: w :: ws) x) with (List.last (w :: ws) x).
  rewrite (IH x w), (IH z w). reflexivity.
Qed.

Lemma last_elem (x : Q) (xs : list Q) : List.last xs x ∈ x :: xs.
Proof.
  revert x. induction xs as [|z zs IH]; intros x; [apply list_elem_of_here|].
  rewrite last_cons. apply list_elem_of_further, IH.
Qed.

Lemma sorted_last_greatest (x : Q) (xs : list Q) :
  StronglySorted Qle (x :: xs) ->
  forall y, y ∈ x :: xs -> (y <= List.last xs x)%Q.
Proof.
  revert x. induction xs as [|z zs IH]; intros x H y Hy.
  - apply list_elem_of_singleton in Hy. subst. simpl. apply Qle_refl.
  - inversion H as [|? ? Hs Hall]; subst. rewrite last_cons.
    apply elem_of_cons in Hy as [-> | Hy].
    + inversion Hall as [|? ? Hxz _]; subst.
      eapply Qle_trans; [exact Hxz|].
      apply IH; [exact Hs|]. apply list_elem_of_here.
    + apply IH; assumption.
Qed.

(** With a clock that does not run backwards the spread is the span of
    the probe: the least latency is that of the first measurement, the
    greatest that of the last one, and the jitter is their difference. *)
Theorem latency_monotone_clock (c : Config) (first : Q) (later : list Q) :
  rounds c - 1 <= len later ->
  StronglySorted Qle (first :: later) ->
  let final := List.last (take (Z.to_nat (rounds c - 1)) later) first in
  exists ms st,
    response (probe c first later) = Some (ms, st) /\
    minimum st = toFixed (first - startTime c) 3 /\
    maximum st = toFixed (final - startTime c) 3 /\
    jitter st
    = toFixed ((final - startTime c) - (first - startTime c)) 3.
Proof.
  intros Hlen Hsorted final.
  destruct (probe_spec c first later Hlen) as (Hm & Hr & _).
  assert (Hrounds : 1 <= rounds c) by (unfold rounds; lia).
  replace (Z.to_nat (rounds c)) with (S (Z.to_nat (rounds c - 1))) in Hm
    by lia.
  simpl take in Hm.
  set (rest := take (Z.to_nat (rounds c - 1)) later) in *.
  assert (Hs : StronglySorted Qle (first :: rest)).
  { apply (sorted_take (S (Z.to_nat (rounds c - 1))) (first :: later)).
    exact Hsorted. }
  eexists _, _. split; [exact Hr|].
  rewrite Hm, map_latency_measuredFrom. cbn [map].
  set (f := fun t : Q => (t - startTime c)%Q).
  change (first - startTime c)%Q with (f first).
  change (final - startTime c)%Q with (f final).
  assert (Hmono : forall a b, (a <= b)%Q -> (f a <= f b)%Q).
  { intros a b Hab. unfold f. lra. }
  assert (Hmin : foldl Qmin (f first) (map f rest) = f first).
  { apply foldl_Qmin_least. apply Forall_map.
    inversion Hs as [|? ? _ Hall]; subst.
    eapply Forall_impl; [exact Hall|]. intros t Ht. apply Hmono, Ht. }
  destruct (spread_max (map f rest) (f first)) as [Hin Hhi].
  assert (Hmax : (foldl Qmax (f first) (map f rest) == f final)%Q).
  { apply Qle_antisym.
    - change (f first :: map f rest) with (map f (first :: rest)) in Hin.
      apply list_elem_of_fmap in Hin as (t & -> & Ht).
      apply Hmono, sorted_last_greatest; assumption.
    - apply Hhi.
      change (f first :: map f rest) with (map f (first :: rest)).
      apply list_elem_of_fmap. exists final. split; [reflexivity|].
      apply last_elem. }
  unfold statistics. cbn [minimum maximum jitter]. rewrite Hmin.
  split; [reflexivity|]. split.
  - apply toFixed_Qeq, Hmax.
  - apply toFixed_Qeq. rewrite Hmax. reflexivity.
Qed.

Lemma latency_monotone_clock_witness :
  exists ms st,
    response (probe (readQuery (Some 3) None 1000%Q) 1001%Q
                [1102%Q; 1204%Q; 1300%Q])
    = Some (ms, st) /\
    minimum st = "1.000" /\ maximum st = "204.000" /\
    jitter st = "203.000".
Proof.
  destruct (latency_monotone_clock (readQuery (Some 3) None 1000%Q) 1001%Q
              [1102%Q; 1204%Q; 1300%Q])
    as (ms & st & Hr & Hmin & Hmax & Hj).
  - vm_compute. discriminate.
  - repeat constructor; vm_compute; discriminate.
  - exists ms, st. split; [exact Hr|].
    split; [exact Hmin|]. split; [exact Hmax|exact Hj].
Defined.

End LatencyMore.

(** * Further properties of the uploads *)

Section UploadMore.
Import Upload.

(** Without a usable [x-upload-start] header (missing, not a number, or
    0) the upload is timed from its arrival at the server: the total
    time is the processing time, and the multi-connection reply reports
    a network duration of 0. *)
Theorem upload_without_start_header (req : Request) (received finished : Q)
  (dataSize : Z) :
  dataSizeOf req = Some dataSize ->
  match uploadStart req with
  | Some q => (q == 0)%Q
  | None => True
  end ->
  exists r m,
    upload req received finished = Success r /\
    uploadMulti req received finished = MultiSuccess m /\
    clientStartTime r = receiveStartTime r /\
    totalTime r = processingTime r /\
    multiClientStartTime m = receiveTime m /\
    totalDuration m = processingDuration m /\
    (networkDuration m == 0)%Q.
Proof.
  intros Hdata Hq.
  assert (Hstart : orDefault (uploadStart req) received = received).
  { unfold orDefault. destruct (uploadStart req) as [q|]; [|reflexivity].
    apply Qeq_bool_iff in Hq. rewrite Hq. reflexivity. }
  unfold upload, uploadMulti. rewrite Hdata, Hstart.
  eexists _, _. split; [reflexivity|]. split; [reflexivity|].
  cbn. repeat split; try reflexivity. ring.
Qed.

Lemma upload_without_start_header_witness :
  exists r m,
    upload (mkRequest None (Some [1; 2; 3]) None None None None None)
      1000%Q 1400%Q = Success r /\
    uploadMulti (mkRequest None (Some [1; 2; 3]) None None None None None)
      1000%Q 1400%Q = MultiSuccess m /\
    totalTime r = processingTime r /\
    totalDuration m = processingDuration m.
Proof.
  destruct (upload_without_start_header
              (mkRequest None (Some [1; 2; 3]) None None None None None)
              1000%Q 1400%Q 3 eq_refl I)
    as (r & m & Hr & Hm & _ & Ht & _ & Hd & _).
  exists r, m. auto.
Defined.

(** An upload of exactly the announced number of megabytes, and any
    upload that announces no positive size, is reported as 100.00 %
    efficient. *)
Theorem upload_exact_size_is_fully_efficient (req : Request)
  (received finished : Q) (dataSize : Z) :
  dataSizeOf req = Some dataSize ->
  (orDefault (testSize req) 0 <= 0 \/
   inject_Z dataSize == orDefault (testSize req) 0 * 1024 * 1024)%Q ->
  exists r,
    upload req received finished = Success r /\
    efficiency r = "100.00".
Proof.
  intros Hdata Hsize. unfold upload. rewrite Hdata.
  eexists. split; [reflexivity|]. cbn [efficiency].
  set (t := orDefault (testSize req) 0) in *.
  destruct (Qltb 0 t) eqn:Hpos; [|reflexivity].
  apply Qltb_lt in Hpos.
  destruct Hsize as [Hle | Heq].
  - exfalso. apply (Qlt_not_le _ _ Hpos). exact Hle.
  - assert (E : (inject_Z dataSize / (t * 1024 * 1024) * 100 == 100)%Q).
    { rewrite Heq. field. intros H0. rewrite H0 in Hpos.
      apply (Qlt_irrefl _ Hpos). }
    rewrite (toFixed_Qeq _ _ 2 E). reflexivity.
Qed.

Lemma upload_exact_size_is_fully_efficient_witness :
  exists r,
    upload (mkRequest (Some (replicate (Z.to_nat 2048) 7)) None None
              (Some (1 # 512)%Q) None None None) 1000%Q 1400%Q
    = Success r /\
    efficiency r = "100.00".
Proof.
  apply (upload_exact_size_is_fully_efficient _ 1000%Q 1400%Q 2048).
  - reflexivity.
  - right. vm_compute. reflexivity.
Defined.

End UploadMore.
